(** * Virtual try-on: the garment fitting pipeline of [main.py]

    A shallow embedding of [scale_mesh], [translate_mesh],
    [align_meshes_icp] and [fit_t_shirt], and the properties the
    specification states about them.

    Modelling conventions.
    - Coordinates are exact rationals ([Q]).  The program computes in
      float64; rounding and the non-finite values (inf, nan) are outside
      this model, so equalities between coordinates are stated with the
      numeric equality [==] of [Q] (lifted to vectors and meshes).
    - Meshes are mutable Python objects.  They live in a store ([heap])
      and are passed around by reference ([ref]); [copy.deepcopy]
      allocates, [apply_transform] updates in place.
    - A Python call either returns or raises; [py A] threads the store
      through both.
    - What trimesh computes from geometry that the rationals cannot
      express (the area-weighted centroid), from randomness (surface
      sampling) or by iteration (ICP) is taken as a parameter, bundled
      in [Trimesh]. *)

From Stdlib Require Import QArith Qminmax Qabs Lqa Lia.
From stdpp Require Import base list strings.

Open Scope Q_scope.

(** ** Vectors and matrices *)

Definition vec3 : Type := Q * Q * Q.
Definition row4 : Type := Q * Q * Q * Q.
Definition mat3 : Type := vec3 * vec3 * vec3.
Definition mat4 : Type := row4 * row4 * row4 * row4.

Definition vec3_to_list (v : vec3) : list Q :=
  let '(x, y, z) := v in [x; y; z].

(** Componentwise arithmetic of numpy arrays of shape (3,). *)
Definition vadd (u v : vec3) : vec3 :=
  let '(a, b, c) := u in let '(d, e, f) := v in (a + d, b + e, c + f).
Definition vsub (u v : vec3) : vec3 :=
  let '(a, b, c) := u in let '(d, e, f) := v in (a - d, b - e, c - f).
Definition vmul (u v : vec3) : vec3 :=
  let '(a, b, c) := u in let '(d, e, f) := v in (a * d, b * e, c * f).
Definition vdiv (u v : vec3) : vec3 :=
  let '(a, b, c) := u in let '(d, e, f) := v in (a / d, b / e, c / f).
Definition vmax (u v : vec3) : vec3 :=
  let '(a, b, c) := u in let '(d, e, f) := v in (Qmax a d, Qmax b e, Qmax c f).
Definition vmin (u v : vec3) : vec3 :=
  let '(a, b, c) := u in let '(d, e, f) := v in (Qmin a d, Qmin b e, Qmin c f).

(** Numeric equality of vectors. *)
Definition veq (u v : vec3) : Prop :=
  let '(a, b, c) := u in let '(d, e, f) := v in a == d /\ b == e /\ c == f.

(** [np.eye(4)] *)
Definition eye4 : mat4 :=
  ((1, 0, 0, 0), (0, 1, 0, 0), (0, 0, 1, 0), (0, 0, 0, 1)).

(** [np.diag(s)] for a sequence of three numbers. *)
Definition np_diag (sx sy sz : Q) : mat3 :=
  ((sx, 0, 0), (0, sy, 0), (0, 0, sz)).

(** [m[:3,:3] = b] *)
Definition set_block3 (m : mat4) (b : mat3) : mat4 :=
  let '((_, _, _, m03), (_, _, _, m13), (_, _, _, m23), r3) := m in
  let '((b00, b01, b02), (b10, b11, b12), (b20, b21, b22)) := b in
  ((b00, b01, b02, m03), (b10, b11, b12, m13), (b20, b21, b22, m23), r3).

(** [m[:3,3] = t] *)
Definition set_column3 (m : mat4) (t : vec3) : mat4 :=
  let '((m00, m01, m02, _), (m10, m11, m12, _), (m20, m21, m22, _), r3) := m in
  let '(tx, ty, tz) := t in
  ((m00, m01, m02, tx), (m10, m11, m12, ty), (m20, m21, m22, tz), r3).

(** ** Meshes *)

Definition face : Type := nat * nat * nat.

Record Mesh := mkMesh { vertices : list vec3; faces : list face }.

Definition PointCloud : Type := list vec3.

(** One row of a homogeneous transform applied to the point (x, y, z, 1). *)
Definition row_dot (r : row4) (p : vec3) : Q :=
  let '(a, b, c, d) := r in let '(x, y, z) := p in
  a * x + b * y + c * z + d * 1.

(** trimesh's [transform_points]: the first three rows of [T . (p, 1)]. *)
Definition transform_point (T : mat4) (p : vec3) : vec3 :=
  let '(r0, r1, r2, _) := T in (row_dot r0 p, row_dot r1 p, row_dot r2 p).

(** The vertex update of [Trimesh.apply_transform].  Only vertex positions
    are tracked: trimesh may also reverse the order inside each face triple
    (for a transform that flips the winding), which changes neither the
    vertices a face refers to nor their number, so the face list is kept
    as it is and no statement below reads the order inside a triple. *)
Definition transform_mesh (T : mat4) (M : Mesh) : Mesh :=
  {| vertices := map (transform_point T) (vertices M); faces := faces M |}.

(** Meshes with numerically equal vertex positions. *)
Definition same_positions (M N : Mesh) : Prop :=
  Forall2 veq (vertices M) (vertices N).

Definition mentions (i : nat) (f : face) : bool :=
  let '(a, b, c) := f in ((a =? i) || (b =? i) || (c =? i))%nat.

(** [vertices[referenced_vertices]]: the vertices some face refers to,
    [i] being the index of the head of [vs]. *)
Fixpoint referenced_from (i : nat) (vs : list vec3) (fs : list face) : list vec3 :=
  match vs with
  | [] => []
  | v :: vs' =>
      if existsb (mentions i) fs
      then v :: referenced_from (S i) vs' fs
      else referenced_from (S i) vs' fs
  end.

Definition referenced (M : Mesh) : list vec3 :=
  referenced_from 0 (vertices M) (faces M).

(** [Trimesh.bounds]: componentwise minimum and maximum over the
    referenced vertices, [None] when there is none. *)
Definition bounds (M : Mesh) : option (vec3 * vec3) :=
  match referenced M with
  | [] => None
  | p :: ps => Some (fold_left vmin ps p, fold_left vmax ps p)
  end.

(** [Trimesh.extents]: [None] for an empty mesh, else max minus min. *)
Definition extents (M : Mesh) : option vec3 :=
  match bounds M with
  | None => None
  | Some (lo, hi) => Some (vsub hi lo)
  end.

(** An empty mesh: zero triangles. *)
Definition is_empty (M : Mesh) : Prop := faces M = [].

(** ** The store and the call monad *)

Abbreviation ref := nat (only parsing).
Abbreviation heap := (list Mesh) (only parsing).

Inductive exn : Type :=
  | TypeError        (* None as an operand of / or subscripted *)
  | AttributeError   (* attribute access on None *)
  | ReferenceError   (* a reference outside the store *)
  | SamplingError.   (* Trimesh.sample raised *)

Inductive outcome (A : Type) : Type :=
  | Returns (a : A) (h : heap)
  | Raises (e : exn) (h : heap).
Arguments Returns {A} a h.
Arguments Raises {A} e h.

Definition py (A : Type) : Type := heap -> outcome A.

Definition final_heap {A} (o : outcome A) : heap :=
  match o with Returns _ h => h | Raises _ h => h end.

#[global] Instance py_ret : MRet py := fun A a h => Returns a h.
#[global] Instance py_bind : MBind py := fun A B f m h =>
  match m h with
  | Returns a h' => f a h'
  | Raises e h' => Raises e h'
  end.

Definition raise {A} (e : exn) : py A := fun h => Raises e h.

(** Reading the object behind a reference. *)
Definition deref (r : ref) : py Mesh := fun h =>
  match h !! r with
  | Some M => Returns M h
  | None => Raises ReferenceError h
  end.

(** A new object, at the first free reference. *)
Definition alloc (M : Mesh) : py ref := fun h => Returns (length h) (h ++ [M]).

(** Overwriting the object behind a reference. *)
Definition store (r : ref) (M : Mesh) : py unit := fun h => Returns tt (<[r := M]> h).

(** [copy.deepcopy(mesh)]: a fresh object with the same contents. *)
Definition deepcopy (r : ref) : py ref :=
  M ← deref r; alloc M.

(** [mesh.apply_transform(T)]: in place. *)
Definition apply_transform (r : ref) (T : mat4) : py unit :=
  M ← deref r; store r (transform_mesh T M).

(** ** [scale_mesh] and [translate_mesh] *)

(** A Python argument expected to be a sequence of numbers: a list or a
    one-dimensional ndarray, or an object of another type. *)
Inductive pyarg : Type :=
  | Seq (l : list Q)
  | NotSeq.

(** [isinstance(a, (list, np.ndarray)) and len(a) == 3] *)
Definition three (a : pyarg) : option vec3 :=
  match a with
  | Seq [x; y; z] => Some (x, y, z)
  | _ => None
  end.

Definition scale_mesh (mesh : option ref) (scale_factors : pyarg) : py (option ref) :=
  match mesh, three scale_factors with
  | Some m, Some (sx, sy, sz) =>
      let scale_matrix := set_block3 eye4 (np_diag sx sy sz) in
      _ ← apply_transform m scale_matrix;
      mret (Some m)
  | _, _ => mret None
  end.

Definition translate_mesh (mesh : option ref) (translation : pyarg) : py (option ref) :=
  match mesh, three translation with
  | Some m, Some t =>
      let transform := set_column3 eye4 t in
      _ ← apply_transform m transform;
      mret (Some m)
  | _, _ => mret None
  end.

(** ** The trimesh operations taken as parameters *)

Record Trimesh := {
  (** [Trimesh.centroid]: the area-weighted mean of the triangle centres. *)
  centroid : Mesh -> vec3;
  (** [Trimesh.sample(count)]: [None] when the call raises. *)
  sample : Mesh -> nat -> option PointCloud;
  (** [trimesh.registration.icp(source, target, initial=eye(4),
      max_iterations, threshold, scale=False)], reduced to the transform
      that [align_meshes_icp] applies: [None] when anything inside its
      [try] block raises (the registration itself, or [apply_transform]
      on a result that is not a 4x4 matrix, such as [None]). *)
  icp : PointCloud -> PointCloud -> nat -> Q -> option mat4
}.

(** ** [align_meshes_icp] and [fit_t_shirt] *)

(** The garment class constants of [fit_t_shirt]. *)
Definition is_female (gender : string) : bool := (gender =? "female")%string.

Definition pre_scale_ratios (gender : string) : vec3 :=
  if is_female gender then (0.71, 0.41, 1.42) else (0.79, 0.43, 1.25).

Definition post_scale_factors (gender : string) : list Q :=
  if is_female gender then [0.9; 1.04; 1.2] else [1; 1.04; 1.3].

(** [a / b] on two [extents] values: a [None] operand raises [TypeError].
    At a zero divisor numpy raises nothing (the quotient is inf or nan, with
    a RuntimeWarning); [Qdiv] is total as well, and its value there is one
    that no statement below relies on. *)
Definition np_divide (a b : option vec3) : py vec3 :=
  match a, b with
  | Some u, Some v => mret (vdiv u v)
  | _, _ => raise TypeError
  end.

(** [a[1]] on an [extents] value. *)
Definition index1 (a : option vec3) : py Q :=
  match a with
  | Some (_, y, _) => mret y
  | None => raise TypeError
  end.

(** [translation[1] += dy] *)
Definition bump_y (t : vec3) (dy : Q) : vec3 :=
  let '(x, y, z) := t in (x, y + dy, z).

Section Pipeline.

Context (L : Trimesh).

(** [mesh.extents] *)
Definition get_extents (r : ref) : py (option vec3) :=
  M ← deref r; mret (extents M).

(** [mesh.centroid], on a value that may be [None]. *)
Definition get_centroid (mesh : option ref) : py vec3 :=
  match mesh with
  | Some r => M ← deref r; mret (centroid L M)
  | None => raise AttributeError
  end.

(** [mesh.sample(count)] *)
Definition get_sample (r : ref) (count : nat) : py PointCloud :=
  M ← deref r;
  match sample L M count with
  | Some points => mret points
  | None => raise SamplingError
  end.

Definition align_meshes_icp (target_mesh source_mesh : option ref)
    (max_iterations : nat) (threshold : Q) : py (option ref) :=
  match target_mesh, source_mesh with
  | Some target, Some source =>
      source_copy ← deepcopy source;
      target_points ← get_sample target 5000;
      source_points ← get_sample source_copy 5000;
      match icp L source_points target_points max_iterations threshold with
      | Some transform =>
          _ ← apply_transform source_copy transform;
          mret (Some source_copy)
      | None => mret None
      end
  | _, _ => mret None
  end.

Definition fit_t_shirt (body_mesh shirt_mesh : option ref) (gender : string)
    : py (option ref * option ref) :=
  match body_mesh, shirt_mesh with
  | Some body, Some shirt =>
      body_size ← get_extents body;
      shirt_size ← get_extents shirt;
      quotient ← np_divide body_size shirt_size;
      let scale_factors := vmul quotient (pre_scale_ratios gender) in
      working ← deepcopy shirt;
      scaled_shirt ← scale_mesh (Some working) (Seq (vec3_to_list scale_factors));
      body_centroid ← get_centroid (Some body);
      shirt_centroid ← get_centroid scaled_shirt;
      let translation := vsub body_centroid shirt_centroid in
      body_height ← index1 body_size;
      let translation := bump_y translation (body_height * 0.1) in
      positioned_shirt ← translate_mesh scaled_shirt (Seq (vec3_to_list translation));
      aligned ← align_meshes_icp (Some body) positioned_shirt 100 0.01;
      let aligned_shirt :=
        match aligned with
        | Some a => Some a
        | None => positioned_shirt
        end in
      final_shirt ← scale_mesh aligned_shirt (Seq (post_scale_factors gender));
      mret (final_shirt, Some body)
  | _, _ => mret (None, None)
  end.

(** The four steps that the docstring of [fit_t_shirt] lists, each the
    lines of the function body that carry it out. *)

(** 1. Scale shirt roughly to body size (lines 108-116). *)
Definition scale_to_body (body shirt : ref) (gender : string)
    : py (option vec3 * option ref) :=
  body_size ← get_extents body;
  shirt_size ← get_extents shirt;
  quotient ← np_divide body_size shirt_size;
  let scale_factors := vmul quotient (pre_scale_ratios gender) in
  working ← deepcopy shirt;
  scaled_shirt ← scale_mesh (Some working) (Seq (vec3_to_list scale_factors));
  mret (body_size, scaled_shirt).

(** 2. Position shirt over body (lines 118-120). *)
Definition position_over_body (body : ref) (body_size : option vec3)
    (scaled_shirt : option ref) : py (option ref) :=
  body_centroid ← get_centroid (Some body);
  shirt_centroid ← get_centroid scaled_shirt;
  let translation := vsub body_centroid shirt_centroid in
  body_height ← index1 body_size;
  let translation := bump_y translation (body_height * 0.1) in
  translate_mesh scaled_shirt (Seq (vec3_to_list translation)).

(** 3. Refine with ICP (lines 122-125). *)
Definition refine_with_icp (body : ref) (positioned_shirt : option ref)
    : py (option ref) :=
  aligned ← align_meshes_icp (Some body) positioned_shirt 100 0.01;
  mret (match aligned with
        | Some a => Some a
        | None => positioned_shirt
        end).

(** 4. Adjust (lines 126-129). *)
Definition adjust (aligned_shirt : option ref) (gender : string) : py (option ref) :=
  scale_mesh aligned_shirt (Seq (post_scale_factors gender)).

(** Steps 1 and 2: the placement before registration. *)
Definition pre_icp_placement (body shirt : ref) (gender : string) : py (option ref) :=
  '(body_size, scaled_shirt) ← scale_to_body body shirt gender;
  position_over_body body body_size scaled_shirt.

End Pipeline.

(** ** Vocabulary of the properties *)




(** A valid mesh: at least one triangle, and every triangle index refers
    to a vertex. *)
Definition valid_mesh (M : Mesh) : Prop :=
  faces M <> [] /\
  Forall (fun f : face => let '(a, b, c) := f in
            (a < length (vertices M) /\ b < length (vertices M)
             /\ c < length (vertices M))%nat)
         (faces M).

(** An argument of [fit_t_shirt] that is [None] or an empty mesh. *)
Definition null_or_empty (h : heap) (mesh : option ref) : Prop :=
  match mesh with
  | None => True
  | Some r => exists M, h !! r = Some M /\ is_empty M
  end.

(** An argument that, when not [None], refers to an object of the store. *)
Definition in_store (h : heap) (mesh : option ref) : Prop :=
  match mesh with
  | None => True
  | Some r => is_Some (h !! r)
  end.

(** The guard of [fit_t_shirt] answered: the pair [(None, None)], which
    is how the function signals an input it refuses. *)
Definition signals_invalid_input (o : outcome (option ref * option ref)) : Prop :=
  exists h, o = Returns (None, None) h.


(** The call stopped with an error: it raised, or it returned without a
    fitted mesh. *)
Definition fails (o : outcome (option ref * option ref)) : Prop :=
  match o with
  | Raises _ _ => True
  | Returns (None, _) _ => True
  | Returns (Some _, _) _ => False
  end.

(** What a call leaves of the store it was given: the first [n] objects
    are still there, as they were. *)
Definition keeps (n : nat) (h h' : heap) : Prop :=
  (n <= length h')%nat /\ forall r : ref, (r < n)%nat -> h' !! r = h !! r.

(** A computation that, run on a store of at least [n] objects, leaves
    the first [n] as they were, and whose result satisfies [post]. *)
Definition writes_above (n : nat) {A} (m : py A) (post : A -> Prop) : Prop :=
  forall h : heap, (n <= length h)%nat ->
    match m h with
    | Returns a h' => post a /\ keeps n h h'
    | Raises _ h' => keeps n h h'
    end.

(** An optional reference that, when present, is not among the first [n]. *)
Definition above (n : nat) (o : option ref) : Prop :=
  forall r, o = Some r -> (n <= r)%nat.

(** ** Sample data *)

Module Sample.

(** A body of extents (1.8, 0.9, 0.5). *)
Definition body : Mesh :=
  mkMesh [(0, 0, 0); (1.8, 0, 0); (0, 0.9, 0); (0, 0, 0.5)]
         [(0, 1, 2); (0, 1, 3)]%nat.

(** A garment of extents (1, 1, 1). *)
Definition shirt : Mesh :=
  mkMesh [(0, 0, 0); (1, 0, 0); (0, 1, 0); (0, 0, 1)]
         [(0, 1, 2); (0, 1, 3)]%nat.


(** A mesh with no triangle. *)
Definition empty_mesh : Mesh := mkMesh [] [].

(** The mean of the vertex positions, standing in for the centroid. *)
Definition mean (M : Mesh) : vec3 :=
  let '(x, y, z) := fold_left vadd (vertices M) (0, 0, 0) in
  let n := inject_Z (Z.of_nat (length (vertices M))) in
  (x / n, y / n, z / n).

(** A library whose sampler returns the vertices and whose registration
    always fails. *)
Definition failing_icp : Trimesh :=
  {| centroid := mean;
     sample := fun M _ => Some (vertices M);
     icp := fun _ _ _ _ => None |}.

(** A library whose registration answers the identity. *)
Definition identity_icp : Trimesh :=
  {| centroid := mean;
     sample := fun M _ => Some (vertices M);
     icp := fun _ _ _ _ => Some eye4 |}.

End Sample.

(** ** The rest of [main.py] *)

(** Componentwise absolute value. *)
Definition vabs (v : vec3) : vec3 :=
  let '(x, y, z) := v in (Qabs x, Qabs y, Qabs z).

(** The mesh a call of [fit_t_shirt] answered as its first result, read
    from the store the call left. *)
Definition fitted_content (o : outcome (option ref * option ref)) : option Mesh :=
  match o with
  | Returns (Some w, _) h => h !! w
  | _ => None
  end.

(** The garment fitted to a body, both given by their content: the
    pipeline run on a store that holds just the two. *)
Definition fitted_garment (L : Trimesh) (B G : Mesh) (gender : string) : option Mesh :=
  fitted_content (fit_t_shirt L (Some 0%nat) (Some 1%nat) gender [B; G]).

(** *** [load_mesh] *)

(** A value of a [geometry] dict, as far as [load_mesh] looks at it: a
    Trimesh, or something else. *)
Inductive geometry_value : Type :=
  | GTrimesh (M : Mesh)
  | GOther.

(** What [trimesh.load] may hand back: a Trimesh, a Scene (the values of
    its geometry dict, in order), or an object of another type (with its
    [geometry], when it has one that has a length). *)
Inductive pyobject : Type :=
  | ATrimesh (M : Mesh)
  | AScene (geometry : list geometry_value)
  | AnObject (geometry : option (list geometry_value)).

(** The two trimesh calls of [load_mesh]; [None] when the call raises. *)
Record Loader := {
  (** [trimesh.load(file_path, force='mesh')] *)
  trimesh_load : string -> option pyobject;
  (** [trimesh.util.concatenate(meshes)] *)
  util_concatenate : list Mesh -> option pyobject
}.

(** [[g for g in geometry if isinstance(g, trimesh.Trimesh)]] *)
Fixpoint trimeshes (geometry : list geometry_value) : list Mesh :=
  match geometry with
  | [] => []
  | GTrimesh M :: rest => M :: trimeshes rest
  | GOther :: rest => trimeshes rest
  end.

(** The middle one of three numbers. *)
Definition median3 (v : vec3) : Q :=
  let '(x, y, z) := v in Qmax (Qmin x y) (Qmin (Qmax x y) z).

(** [np.median(a)] on an [extents] value; [None] makes it raise. *)
Definition np_median (a : option vec3) : py Q :=
  match a with
  | Some v => mret (median3 v)
  | None => raise TypeError
  end.

(** [mesh.apply_scale(s)] for a number [s]: the uniform scale matrix. *)
Definition apply_scale (r : ref) (s : Q) : py unit :=
  apply_transform r (set_block3 eye4 (np_diag s s s)).

(** [try: body / except Exception: handler] *)
Definition try_except {A} (body handler : py A) : py A := fun h =>
  match body h with
  | Returns a h' => Returns a h'
  | Raises _ h' => handler h'
  end.

(** Lines 19-25: an object that is not a Trimesh but has a non-empty
    [geometry] is replaced by the first value of it; what is not a
    Trimesh then is given up. *)
Definition as_trimesh (mesh : pyobject) : option Mesh :=
  match mesh with
  | ATrimesh M => Some M
  | AScene (GTrimesh M :: _) => Some M
  | AnObject (Some (GTrimesh M :: _)) => Some M
  | _ => None
  end.

(** Lines 27-30, on the object the store holds for the loaded Trimesh. *)
Definition normalize_units (r : ref) : py (option ref) :=
  size ← get_extents r;
  m ← np_median size;
  _ ← (if Qlt_le_dec 10 m then apply_scale r 0.001 else mret tt);
  mret (Some r).

(** Lines 12-25: the Trimesh that is got out of the file, [None] when a
    trimesh call raises or no Trimesh is found. *)
Definition extract_trimesh (Ld : Loader) (file_path : string) : option Mesh :=
  match trimesh_load Ld file_path with
  | None => None
  | Some loaded =>
      match (match loaded with
             | AScene geometry => util_concatenate Ld (trimeshes geometry)
             | _ => Some loaded
             end) with
      | None => None
      | Some mesh => as_trimesh mesh
      end
  end.

(** The whole body of [load_mesh] is inside [try]; whatever raises, the
    handler returns [None], as line 25 does when no Trimesh is found. *)
Definition load_mesh (Ld : Loader) (file_path : string) : py (option ref) :=
  match extract_trimesh Ld file_path with
  | Some M => try_except (r ← alloc M; normalize_units r) (mret None)
  | None => mret None
  end.

(** The mesh that [load_mesh] returns for a file, by its content. *)
Definition loaded_mesh (Ld : Loader) (file_path : string) : option Mesh :=
  match load_mesh Ld file_path [] with
  | Returns (Some r) h => h !! r
  | _ => None
  end.

(** *** [visualize_meshes] and [main] *)

(** The program's world: the store, and the scenes shown so far, each the
    meshes of one viewer window. *)
Record world := mkWorld { objects : heap; windows : list (list Mesh) }.

Inductive run (A : Type) : Type :=
  | Finished (a : A) (w : world)
  | Crashed (e : exn) (w : world).
Arguments Finished {A} a w.
Arguments Crashed {A} e w.

Definition io (A : Type) : Type := world -> run A.

#[global] Instance io_ret : MRet io := fun A a w => Finished a w.
#[global] Instance io_bind : MBind io := fun A B f m w =>
  match m w with
  | Finished a w' => f a w'
  | Crashed e w' => Crashed e w'
  end.

(** A call that works on the store only. *)
Definition lift {A} (m : py A) : io A := fun w =>
  match m (objects w) with
  | Returns a h => Finished a (mkWorld h (windows w))
  | Raises e h => Crashed e (mkWorld h (windows w))
  end.

(** [pyrender.Viewer(scene)]: one more window.  Building the scene and
    opening the viewer are taken to succeed. *)
Definition viewer (scene : list Mesh) : io unit := fun w =>
  Finished tt (mkWorld (objects w) (windows w ++ [scene])).

(** The first argument of [visualize_meshes]: a list, or anything else.
    The function never reads its other two arguments, [colors] and
    [title], which are left out. *)
Inductive meshes_arg : Type :=
  | AList (l : list (option ref))
  | NotAList (m : option ref).

(** The loop of lines 40-41: every mesh that is not [None] is added to
    the scene, in order. *)
Fixpoint add_meshes (meshes : list (option ref)) : py (list Mesh) :=
  match meshes with
  | [] => mret []
  | None :: rest => add_meshes rest
  | Some r :: rest =>
      M ← deref r;
      scene ← add_meshes rest;
      mret (M :: scene)
  end.

Definition visualize_meshes (meshes : meshes_arg) : io unit :=
  let meshes := match meshes with AList l => l | NotAList m => [m] end in
  scene ← lift (add_meshes meshes);
  viewer scene.

(** The loop of lines 147-155; [false] when it left [main] by [return]. *)
Fixpoint fit_each (L : Trimesh) (shirt : option ref)
    (todo : list (option ref * string)) : io bool :=
  match todo with
  | [] => mret true
  | (i, gender) :: rest =>
      '(fitted_shirt, body) ← lift (fit_t_shirt L i shirt gender);
      match fitted_shirt with
      | None => mret false
      | Some _ =>
          _ ← visualize_meshes (AList [body; fitted_shirt]);
          fit_each L shirt rest
      end
  end.

Definition main (Ld : Loader) (L : Trimesh) : io unit :=
  female_mesh ← lift (load_mesh Ld "female_body.glb");
  male_mesh ← lift (load_mesh Ld "male_body-2.glb");
  shirt ← lift (load_mesh Ld "normal_t-shirt_animated.glb");
  match female_mesh, male_mesh, shirt with
  | Some _, Some _, Some _ =>
      _ ← fit_each L shirt [(female_mesh, "female"%string); (male_mesh, "male"%string)];
      mret tt
  | _, _, _ => mret tt
  end.

(** Sample files: a body modelled in millimetres, and a garment. *)
Module Files.

Definition big_body : Mesh :=
  mkMesh [(0, 0, 0); (1800, 0, 0); (0, 900, 0); (0, 0, 500)]
         [(0, 1, 2); (0, 1, 3)]%nat.

Definition disk : Loader :=
  {| trimesh_load := fun path =>
       if (path =? "female_body.glb")%string then Some (ATrimesh big_body)
       else if (path =? "male_body-2.glb")%string then Some (AScene [GOther; GTrimesh Sample.body])
       else if (path =? "normal_t-shirt_animated.glb")%string then Some (ATrimesh Sample.shirt)
       else if (path =? "empty.glb")%string then Some (ATrimesh Sample.empty_mesh)
       else None;
     util_concatenate := fun meshes =>
       match meshes with
       | [M] => Some (ATrimesh M)
       | _ => None
       end |}.

(** The same files, without the male body. *)
Definition no_male_body : Loader :=
  {| trimesh_load := fun path =>
       if (path =? "male_body-2.glb")%string then None else trimesh_load disk path;
     util_concatenate := util_concatenate disk |}.


End Files.

(** ** Running the primitives *)

Lemma bind_run {A B} (m : py A) (f : A -> py B) (h : heap) :
  (x ← m; f x) h =
  match m h with
  | Returns a h' => f a h'
  | Raises e h' => Raises e h'
  end.
Proof. reflexivity. Qed.

Lemma deref_run (h : heap) (r : ref) (M : Mesh) :
  h !! r = Some M -> deref r h = Returns M h.
Proof. intros H. unfold deref. now rewrite H. Qed.

Lemma deepcopy_run (h : heap) (r : ref) (M : Mesh) :
  h !! r = Some M -> deepcopy r h = Returns (length h) (h ++ [M]).
Proof. intros H. unfold deepcopy. rewrite bind_run, (deref_run _ _ _ H). reflexivity. Qed.

Lemma apply_transform_run (h : heap) (r : ref) (M : Mesh) (T : mat4) :
  h !! r = Some M ->
  apply_transform r T h = Returns tt (<[r := transform_mesh T M]> h).
Proof. intros H. unfold apply_transform. rewrite bind_run, (deref_run _ _ _ H). reflexivity. Qed.

Lemma scale_mesh_run (h : heap) (r : ref) (M : Mesh) (sx sy sz : Q) :
  h !! r = Some M ->
  scale_mesh (Some r) (Seq [sx; sy; sz]) h =
  Returns (Some r) (<[r := transform_mesh (set_block3 eye4 (np_diag sx sy sz)) M]> h).
Proof.
  intros H. unfold scale_mesh. cbn [three].
  rewrite bind_run, (apply_transform_run _ _ _ _ H). reflexivity.
Qed.

Lemma translate_mesh_run (h : heap) (r : ref) (M : Mesh) (t : vec3) :
  h !! r = Some M ->
  translate_mesh (Some r) (Seq (vec3_to_list t)) h =
  Returns (Some r) (<[r := transform_mesh (set_column3 eye4 t) M]> h).
Proof.
  intros H. destruct t as [[tx ty] tz]. unfold translate_mesh. cbn [three vec3_to_list].
  rewrite bind_run, (apply_transform_run _ _ _ _ H). reflexivity.
Qed.

(** ** Geometry of scaling and translation *)


Lemma veq_trans (u v w : vec3) : veq u v -> veq v w -> veq u w.
Proof.
  destruct u as [[a b] c], v as [[d e] f], w as [[g i] j]. cbn.
  intros (H1 & H2 & H3) (H4 & H5 & H6).
  repeat split; etransitivity; eassumption.
Qed.

(** The scale matrix multiplies each coordinate by its factor. *)
Lemma scale_point (sx sy sz : Q) (v : vec3) :
  veq (transform_point (set_block3 eye4 (np_diag sx sy sz)) v) (vmul (sx, sy, sz) v).
Proof. destruct v as [[x y] z]. cbn. repeat split; ring. Qed.


Lemma transform_mesh_pointwise (T : mat4) (f : vec3 -> vec3) (M : Mesh) :
  (forall v, veq (transform_point T v) (f v)) ->
  Forall2 (fun v v' => veq v' (f v)) (vertices M) (vertices (transform_mesh T M)).
Proof.
  intros H. cbn. induction (vertices M) as [|v vs IH]; cbn; constructor; auto.
Qed.

(** *** Extents under translation *)








(** Which vertices are referenced depends on the indices only. *)
Lemma referenced_from_Forall2 (R : vec3 -> vec3 -> Prop) (fs : list face) :
  forall (vs ws : list vec3) (i : nat),
    Forall2 R vs ws ->
    Forall2 R (referenced_from i vs fs) (referenced_from i ws fs).
Proof.
  intros vs ws i H. revert i.
  induction H as [|v w vs ws Hvw _ IH]; intros i; cbn.
  - constructor.
  - destruct (existsb (mentions i) fs); [constructor|]; auto.
Qed.


(** ** Running the steps of [fit_t_shirt] *)

Lemma insert_last (h : heap) (M N : Mesh) :
  <[length h := N]> (h ++ [M]) = h ++ [N].
Proof.
  rewrite insert_app_r_alt by lia. now rewrite Nat.sub_diag.
Qed.

Lemma lookup_last (h : heap) (M : Mesh) : (h ++ [M]) !! length h = Some M.
Proof. rewrite lookup_app_r by lia. now rewrite Nat.sub_diag. Qed.

Lemma lookup_old (h : heap) (M N : Mesh) (r : ref) :
  h !! r = Some M -> (h ++ [N]) !! r = Some M.
Proof. intros H. rewrite lookup_app_l; [assumption|]. eapply lookup_lt_Some; eassumption. Qed.

Section Steps.

Context (L : Trimesh).

Lemma get_extents_run (h : heap) (r : ref) (M : Mesh) :
  h !! r = Some M -> get_extents r h = Returns (extents M) h.
Proof. intros H. unfold get_extents. rewrite bind_run, (deref_run _ _ _ H). reflexivity. Qed.

Lemma get_centroid_run (h : heap) (r : ref) (M : Mesh) :
  h !! r = Some M -> get_centroid L (Some r) h = Returns (centroid L M) h.
Proof. intros H. unfold get_centroid. rewrite bind_run, (deref_run _ _ _ H). reflexivity. Qed.

Lemma get_sample_run (h : heap) (r : ref) (M : Mesh) (n : nat) :
  h !! r = Some M ->
  get_sample L r n h =
  match sample L M n with
  | Some points => Returns points h
  | None => Raises SamplingError h
  end.
Proof.
  intros H. unfold get_sample. rewrite bind_run, (deref_run _ _ _ H).
  destruct (sample L M n); reflexivity.
Qed.

(** Step 1 on two non-empty meshes: a scaled copy of the garment is
    appended to the store. *)
Lemma scale_to_body_run (h : heap) (body shirt : ref) (B S : Mesh)
    (b g : vec3) (gender : string) :
  h !! body = Some B -> h !! shirt = Some S ->
  extents B = Some b -> extents S = Some g ->
  scale_to_body body shirt gender h =
  let '(sx, sy, sz) := vmul (vdiv b g) (pre_scale_ratios gender) in
  Returns (Some b, Some (length h))
          (h ++ [transform_mesh (set_block3 eye4 (np_diag sx sy sz)) S]).
Proof.
  intros HB HS Hb Hg. unfold scale_to_body.
  rewrite bind_run, (get_extents_run _ _ _ HB), Hb.
  rewrite bind_run, (get_extents_run _ _ _ HS), Hg.
  rewrite bind_run. cbn [np_divide mret py_ret].
  destruct (vmul (vdiv b g) (pre_scale_ratios gender)) as [[sx sy] sz] eqn:Hf.
  rewrite bind_run, (deepcopy_run _ _ _ HS).
  cbn [vec3_to_list].
  rewrite bind_run, (scale_mesh_run _ _ _ _ _ _ (lookup_last h S)).
  rewrite insert_last. reflexivity.
Qed.

(** Step 1 stops at the division when a mesh has no extents. *)
Lemma scale_to_body_no_extents (h : heap) (body shirt : ref) (B S : Mesh)
    (gender : string) :
  h !! body = Some B -> h !! shirt = Some S ->
  extents B = None \/ extents S = None ->
  scale_to_body body shirt gender h = Raises TypeError h.
Proof.
  intros HB HS Hnone. unfold scale_to_body.
  rewrite bind_run, (get_extents_run _ _ _ HB).
  rewrite bind_run, (get_extents_run _ _ _ HS).
  rewrite bind_run.
  destruct Hnone as [-> | ->]; [|destruct (extents B)]; reflexivity.
Qed.

(** Step 2 on a scaled garment. *)
Lemma position_over_body_run (h : heap) (body w : ref) (B W : Mesh) (b : vec3) :
  h !! body = Some B -> h !! w = Some W ->
  position_over_body L body (Some b) (Some w) h =
  let t := bump_y (vsub (centroid L B) (centroid L W)) (snd (fst b) * 0.1) in
  Returns (Some w) (<[w := transform_mesh (set_column3 eye4 t) W]> h).
Proof.
  intros HB HW. unfold position_over_body.
  rewrite bind_run, (get_centroid_run _ _ _ HB).
  rewrite bind_run, (get_centroid_run _ _ _ HW).
  destruct b as [[bx by_] bz]. rewrite bind_run. cbn [index1 fst snd].
  cbn [mret py_ret]. cbv zeta.
  apply translate_mesh_run. assumption.
Qed.

(** [fit_t_shirt] is its four steps in sequence. *)
Lemma fit_t_shirt_steps (body shirt : ref) (gender : string) (h : heap) :
  fit_t_shirt L (Some body) (Some shirt) gender h =
  (positioned_shirt ← pre_icp_placement L body shirt gender;
   aligned_shirt ← refine_with_icp L body positioned_shirt;
   final_shirt ← adjust aligned_shirt gender;
   mret (final_shirt, Some body)) h.
Proof.
  unfold fit_t_shirt, pre_icp_placement, scale_to_body, position_over_body,
    refine_with_icp, adjust.
  cbv beta delta [mbind py_bind mret py_ret].
  repeat match goal with
         | |- context [match ?f ?x with Returns _ _ => _ | Raises _ _ => _ end] =>
             destruct (f x) as [? ?|? ?]
         end; reflexivity.
Qed.

End Steps.

(** ** What a call leaves of the caller's store *)

Lemma keeps_refl (n : nat) (h : heap) : (n <= length h)%nat -> keeps n h h.
Proof. intros H. split; [assumption|reflexivity]. Qed.

Lemma keeps_trans (n : nat) (h1 h2 h3 : heap) :
  keeps n h1 h2 -> keeps n h2 h3 -> keeps n h1 h3.
Proof.
  intros [_ H12] [H3 H23]. split; [assumption|].
  intros r Hr. rewrite H23, H12 by assumption. reflexivity.
Qed.

Lemma keeps_alloc (n : nat) (h : heap) (M : Mesh) :
  (n <= length h)%nat -> keeps n h (h ++ [M]).
Proof.
  intros H. split.
  - rewrite length_app. lia.
  - intros r Hr. apply lookup_app_l. lia.
Qed.

Lemma keeps_store (n : nat) (h : heap) (r : ref) (M : Mesh) :
  (n <= length h)%nat -> (n <= r)%nat -> keeps n h (<[r := M]> h).
Proof.
  intros H Hr. split.
  - rewrite length_insert. assumption.
  - intros r' Hr'. apply list_lookup_insert_ne. lia.
Qed.

Lemma writes_above_ret {A} (n : nat) (a : A) (post : A -> Prop) :
  post a -> writes_above n (mret a) post.
Proof. intros H h Hn. cbn. split; [assumption|]. now apply keeps_refl. Qed.

Lemma writes_above_raise {A} (n : nat) (e : exn) (post : A -> Prop) :
  writes_above n (raise e) post.
Proof. intros h Hn. cbn. now apply keeps_refl. Qed.

Lemma writes_above_bind {A B} (n : nat) (m : py A) (f : A -> py B)
    (mid : A -> Prop) (post : B -> Prop) :
  writes_above n m mid ->
  (forall a, mid a -> writes_above n (f a) post) ->
  writes_above n (x ← m; f x) post.
Proof.
  intros Hm Hf h Hn. rewrite bind_run. specialize (Hm h Hn).
  destruct (m h) as [a h'|e h']; [|assumption].
  destruct Hm as [Ha Hk]. specialize (Hf a Ha h' (proj1 Hk)).
  destruct (f a h') as [b h''|e h''].
  - destruct Hf as [Hb Hk']. split; [assumption|]. eapply keeps_trans; eassumption.
  - eapply keeps_trans; eassumption.
Qed.

Lemma writes_above_deref (n : nat) (r : ref) :
  writes_above n (deref r) (fun _ => True).
Proof.
  intros h Hn. unfold deref. destruct (h !! r); [split; [exact I|]|]; now apply keeps_refl.
Qed.

Lemma writes_above_alloc (n : nat) (M : Mesh) :
  writes_above n (alloc M) (fun w => (n <= w)%nat).
Proof. intros h Hn. cbn. split; [assumption|]. now apply keeps_alloc. Qed.

Lemma writes_above_store (n : nat) (r : ref) (M : Mesh) :
  (n <= r)%nat -> writes_above n (store r M) (fun _ => True).
Proof. intros Hr h Hn. cbn. split; [exact I|]. now apply keeps_store. Qed.

Lemma writes_above_deepcopy (n : nat) (r : ref) :
  writes_above n (deepcopy r) (fun w => (n <= w)%nat).
Proof.
  unfold deepcopy. eapply writes_above_bind; [apply writes_above_deref|].
  intros M _. apply writes_above_alloc.
Qed.

Lemma writes_above_apply_transform (n : nat) (r : ref) (T : mat4) :
  (n <= r)%nat -> writes_above n (apply_transform r T) (fun _ => True).
Proof.
  intros Hr. unfold apply_transform.
  eapply writes_above_bind; [apply writes_above_deref|].
  intros M _. now apply writes_above_store.
Qed.

Lemma writes_above_scale_mesh (n : nat) (mesh : option ref) (a : pyarg) :
  above n mesh -> writes_above n (scale_mesh mesh a) (above n).
Proof.
  intros Hm. unfold scale_mesh.
  destruct mesh as [m|]; [|apply writes_above_ret; intros r; discriminate].
  destruct (three a) as [[[sx sy] sz]|]; [|apply writes_above_ret; intros r; discriminate].
  eapply writes_above_bind; [apply writes_above_apply_transform; now apply Hm|].
  intros _ _. now apply writes_above_ret.
Qed.

Lemma writes_above_translate_mesh (n : nat) (mesh : option ref) (a : pyarg) :
  above n mesh -> writes_above n (translate_mesh mesh a) (above n).
Proof.
  intros Hm. unfold translate_mesh.
  destruct mesh as [m|]; [|apply writes_above_ret; intros r; discriminate].
  destruct (three a) as [t|]; [|apply writes_above_ret; intros r; discriminate].
  eapply writes_above_bind; [apply writes_above_apply_transform; now apply Hm|].
  intros _ _. now apply writes_above_ret.
Qed.

Section Frame.

Context (L : Trimesh).

Lemma writes_above_get_extents (n : nat) (r : ref) :
  writes_above n (get_extents r) (fun _ => True).
Proof.
  unfold get_extents. eapply writes_above_bind; [apply writes_above_deref|].
  intros M _. now apply writes_above_ret.
Qed.

Lemma writes_above_get_centroid (n : nat) (mesh : option ref) :
  writes_above n (get_centroid L mesh) (fun _ => True).
Proof.
  unfold get_centroid. destruct mesh as [r|]; [|apply writes_above_raise].
  eapply writes_above_bind; [apply writes_above_deref|].
  intros M _. now apply writes_above_ret.
Qed.

Lemma writes_above_get_sample (n : nat) (r : ref) (count : nat) :
  writes_above n (get_sample L r count) (fun _ => True).
Proof.
  unfold get_sample. eapply writes_above_bind; [apply writes_above_deref|].
  intros M _. destruct (sample L M count);
    [now apply writes_above_ret|apply writes_above_raise].
Qed.

Lemma writes_above_align_meshes_icp (n : nat) (target source : option ref)
    (max_iterations : nat) (threshold : Q) :
  writes_above n (align_meshes_icp L target source max_iterations threshold) (above n).
Proof.
  unfold align_meshes_icp.
  destruct target as [t|]; [|apply writes_above_ret; intros r; discriminate].
  destruct source as [s|]; [|apply writes_above_ret; intros r; discriminate].
  eapply writes_above_bind; [apply writes_above_deepcopy|].
  intros c Hc.
  eapply writes_above_bind; [apply writes_above_get_sample|]. intros tp _.
  eapply writes_above_bind; [apply writes_above_get_sample|]. intros sp _.
  destruct (icp L sp tp max_iterations threshold) as [T|];
    [|apply writes_above_ret; intros r; discriminate].
  eapply writes_above_bind; [now apply writes_above_apply_transform|].
  intros _ _. apply writes_above_ret. intros r [= <-]. assumption.
Qed.

(** [fit_t_shirt] writes to its own copies only, and answers the body
    it was given next to a mesh of its own. *)
Lemma writes_above_fit_t_shirt (n : nat) (body shirt : ref) (gender : string) :
  writes_above n (fit_t_shirt L (Some body) (Some shirt) gender)
    (fun res => above n (fst res) /\ snd res = Some body).
Proof.
  unfold fit_t_shirt.
  eapply writes_above_bind; [apply writes_above_get_extents|]. intros body_size _.
  eapply writes_above_bind; [apply writes_above_get_extents|]. intros shirt_size _.
  eapply writes_above_bind with (mid := fun _ => True).
  { unfold np_divide. destruct body_size, shirt_size;
      first [now apply writes_above_ret | apply writes_above_raise]. }
  intros quotient _.
  eapply writes_above_bind; [apply writes_above_deepcopy|]. intros working Hw.
  eapply writes_above_bind.
  { apply writes_above_scale_mesh. intros r [= <-]. exact Hw. }
  intros scaled Hscaled.
  eapply writes_above_bind; [apply writes_above_get_centroid|]. intros cb _.
  eapply writes_above_bind; [apply writes_above_get_centroid|]. intros cs _.
  eapply writes_above_bind with (mid := fun _ => True).
  { unfold index1. destruct body_size as [[[? ?] ?]|];
      [now apply writes_above_ret | apply writes_above_raise]. }
  intros dy _.
  eapply writes_above_bind; [now apply writes_above_translate_mesh|].
  intros positioned Hpositioned.
  eapply writes_above_bind; [apply writes_above_align_meshes_icp|].
  intros aligned Haligned.
  eapply writes_above_bind.
  { apply writes_above_scale_mesh. destruct aligned; eassumption. }
  intros final Hfinal. apply writes_above_ret. split; [assumption|reflexivity].
Qed.

End Frame.

(** ** Properties of [scale_mesh] and [translate_mesh] *)




(** C8. Scaling by (1, 1, 1) leaves every vertex position of the mesh
    unchanged. *)
Theorem scale_mesh_identity (h : heap) (r : ref) (M : Mesh) :
  h !! r = Some M ->
  exists M',
    scale_mesh (Some r) (Seq [1; 1; 1]) h = Returns (Some r) (<[r := M']> h) /\
    same_positions M' M.
Proof.
  intros Hr. eexists. split; [apply scale_mesh_run; eassumption|].
  unfold same_positions. cbn [transform_mesh vertices].
  induction (vertices M) as [|v vs IH]; cbn [map]; constructor; [|exact IH].
  eapply veq_trans; [apply scale_point|].
  destruct v as [[x y] z]. cbn. repeat split; ring.
Qed.

Lemma scale_mesh_identity_witness :
  [Sample.body; Sample.shirt] !! 1%nat = Some Sample.shirt /\
  exists M',
    scale_mesh (Some 1%nat) (Seq [1; 1; 1]) [Sample.body; Sample.shirt]
    = Returns (Some 1%nat) (<[1%nat := M']> [Sample.body; Sample.shirt]) /\
    same_positions M' Sample.shirt.
Proof.
  split; [reflexivity|].
  apply (scale_mesh_identity [Sample.body; Sample.shirt] 1%nat Sample.shirt).
  reflexivity.
Defined.



(** ** The garment class *)



(** ** The pipeline on two non-empty meshes *)

Section Runs.

Context (L : Trimesh).

(** Steps 1 and 2 always go through. *)
Lemma pre_icp_placement_run (h : heap) (body shirt : ref) (B S : Mesh)
    (b g : vec3) (gender : string) :
  h !! body = Some B -> h !! shirt = Some S ->
  extents B = Some b -> extents S = Some g ->
  pre_icp_placement L body shirt gender h =
  let '(sx, sy, sz) := vmul (vdiv b g) (pre_scale_ratios gender) in
  let W := transform_mesh (set_block3 eye4 (np_diag sx sy sz)) S in
  let t := bump_y (vsub (centroid L B) (centroid L W)) (snd (fst b) * 0.1) in
  Returns (Some (length h)) (h ++ [transform_mesh (set_column3 eye4 t) W]).
Proof.
  intros HB HS Hb Hg. unfold pre_icp_placement.
  rewrite bind_run, (scale_to_body_run h body shirt B S b g gender HB HS Hb Hg).
  destruct (vmul (vdiv b g) (pre_scale_ratios gender)) as [[sx sy] sz].
  cbv zeta.
  rewrite (position_over_body_run L _ body (length h) B _ b
             (lookup_old _ _ _ _ HB) (lookup_last _ _)).
  cbv zeta. rewrite insert_last. reflexivity.
Qed.

(** [align_meshes_icp] on two meshes of the store: a copy of the source
    is appended, and transformed when the registration succeeds. *)
Lemma align_meshes_icp_run (h : heap) (target source : ref) (T S : Mesh)
    (max_iterations : nat) (threshold : Q) :
  h !! target = Some T -> h !! source = Some S ->
  align_meshes_icp L (Some target) (Some source) max_iterations threshold h =
  match sample L T 5000, sample L S 5000 with
  | Some target_points, Some source_points =>
      match icp L source_points target_points max_iterations threshold with
      | Some transform =>
          Returns (Some (length h)) (h ++ [transform_mesh transform S])
      | None => Returns None (h ++ [S])
      end
  | _, _ => Raises SamplingError (h ++ [S])
  end.
Proof.
  intros HT HS. unfold align_meshes_icp.
  rewrite bind_run, (deepcopy_run _ _ _ HS).
  rewrite bind_run, (get_sample_run L _ _ _ _ (lookup_old _ _ _ _ HT)).
  destruct (sample L T 5000) as [tp|]; [|reflexivity].
  rewrite bind_run, (get_sample_run L _ _ _ _ (lookup_last _ _)).
  destruct (sample L S 5000) as [sp|]; [|reflexivity].
  destruct (icp L sp tp max_iterations threshold) as [transform|]; [|reflexivity].
  rewrite bind_run, (apply_transform_run _ _ _ _ (lookup_last _ _)).
  rewrite insert_last. reflexivity.
Qed.

Lemma post_scale_factors_three (gender : string) :
  exists fx fy fz, post_scale_factors gender = [fx; fy; fz].
Proof. unfold post_scale_factors. destruct (is_female gender); eauto. Qed.

(** Every outcome of [fit_t_shirt] on two non-empty meshes, by what the
    sampler and the registration answer; [P] is the garment as steps 1
    and 2 placed it. *)
Lemma fit_t_shirt_run (h : heap) (body shirt : ref) (B P : Mesh)
    (gender : string) (fx fy fz : Q) :
  h !! body = Some B ->
  pre_icp_placement L body shirt gender h = Returns (Some (length h)) (h ++ [P]) ->
  post_scale_factors gender = [fx; fy; fz] ->
  fit_t_shirt L (Some body) (Some shirt) gender h =
  match sample L B 5000, sample L P 5000 with
  | Some target_points, Some source_points =>
      match icp L source_points target_points 100 0.01 with
      | Some transform =>
          Returns (Some (S (length h)), Some body)
            (h ++ [P; transform_mesh (set_block3 eye4 (np_diag fx fy fz))
                        (transform_mesh transform P)])
      | None =>
          Returns (Some (length h), Some body)
            (h ++ [transform_mesh (set_block3 eye4 (np_diag fx fy fz)) P; P])
      end
  | _, _ => Raises SamplingError (h ++ [P; P])
  end.
Proof.
  intros HB Hpre Hpost. rewrite fit_t_shirt_steps.
  rewrite bind_run, Hpre. unfold refine_with_icp, adjust.
  rewrite !bind_run.
  rewrite (align_meshes_icp_run (h ++ [P]) body (length h) B P 100 0.01
             (lookup_old _ _ _ _ HB) (lookup_last _ _)).
  rewrite Hpost.
  replace (length (h ++ [P])) with (S (length h)) by (rewrite length_app; cbn; lia).
  replace ((h ++ [P]) ++ [P]) with (h ++ [P; P]) by (now rewrite <- app_assoc).
  destruct (sample L B 5000) as [tp|]; [|reflexivity].
  destruct (sample L P 5000) as [sp|]; [|reflexivity].
  destruct (icp L sp tp 100 0.01) as [transform|].
  - cbn [mret py_ret].
    assert (Hl : ((h ++ [P]) ++ [transform_mesh transform P]) !! S (length h)
                 = Some (transform_mesh transform P)).
    { replace (S (length h)) with (length (h ++ [P])) by (rewrite length_app; cbn; lia).
      apply lookup_last. }
    rewrite bind_run, (scale_mesh_run _ _ _ _ _ _ Hl).
    cbn [mret py_ret]. f_equal.
    replace (S (length h)) with (length (h ++ [P])) by (rewrite length_app; cbn; lia).
    rewrite insert_last, <- app_assoc. reflexivity.
  - cbn [mret py_ret].
    assert (Hl : (h ++ [P; P]) !! length h = Some P).
    { rewrite lookup_app_r by lia. now rewrite Nat.sub_diag. }
    rewrite bind_run, (scale_mesh_run _ _ _ _ _ _ Hl).
    cbn [mret py_ret]. f_equal.
    rewrite insert_app_r_alt by lia. now rewrite Nat.sub_diag.
Qed.

End Runs.

(** ** Properties of [fit_t_shirt] *)





Lemma referenced_from_hit (fs : list face) (vs : list vec3) :
  forall i k : nat,
    (k < length vs)%nat -> existsb (mentions (i + k)) fs = true ->
    referenced_from i vs fs <> [].
Proof.
  induction vs as [|v vs IH]; intros i k Hk Hhit; cbn in *; [lia|].
  destruct (existsb (mentions i) fs) eqn:Hi; [discriminate|].
  destruct k as [|k]; [rewrite Nat.add_0_r in Hhit; congruence|].
  apply (IH (S i) k); [lia|].
  replace (S i + k)%nat with (i + S k)%nat by lia. assumption.
Qed.

(** A valid mesh has extents. *)
Lemma valid_mesh_extents (M : Mesh) : valid_mesh M -> exists e, extents M = Some e.
Proof.
  intros [Hne Hidx]. unfold extents, bounds, referenced.
  destruct (referenced_from 0 (vertices M) (faces M)) as [|p ps] eqn:Href;
    [|eexists; reflexivity].
  exfalso. destruct (faces M) as [|[[a b] c] fs] eqn:Hf; [congruence|].
  apply Forall_cons in Hidx as [(Ha & _) _].
  apply (referenced_from_hit ((a, b, c) :: fs) (vertices M) 0 a Ha); [|exact Href].
  cbn. rewrite Nat.eqb_refl. reflexivity.
Qed.

(** C3. On two non-empty meshes, when the registration fails once both
    point clouds are sampled, [fit_t_shirt] still returns: the fitted mesh
    is the garment as steps 1 and 2 placed it, with the post-scale of the
    class applied and nothing else, and the second result is the body. *)
Theorem icp_failure_keeps_placement (L : Trimesh) (h : heap) (body shirt : ref)
    (B G : Mesh) (gender : string) :
  h !! body = Some B -> h !! shirt = Some G ->
  valid_mesh B -> valid_mesh G ->
  exists P,
    pre_icp_placement L body shirt gender h = Returns (Some (length h)) (h ++ [P]) /\
    forall target_points source_points,
      sample L B 5000 = Some target_points ->
      sample L P 5000 = Some source_points ->
      icp L source_points target_points 100 0.01 = None ->
      exists fx fy fz F h',
        post_scale_factors gender = [fx; fy; fz] /\
        fit_t_shirt L (Some body) (Some shirt) gender h
        = Returns (Some (length h), Some body) h' /\
        h' !! length h = Some F /\
        Forall2 (fun v v' => veq v' (vmul (fx, fy, fz) v)) (vertices P) (vertices F).
Proof.
  intros HB HG HvB HvG.
  destruct (valid_mesh_extents B HvB) as [b Hb].
  destruct (valid_mesh_extents G HvG) as [g Hg].
  pose proof (pre_icp_placement_run L h body shirt B G b g gender HB HG Hb Hg) as Hplace.
  destruct (vmul (vdiv b g) (pre_scale_ratios gender)) as [[sx sy] sz].
  cbv zeta in Hplace.
  match type of Hplace with _ = Returns _ (_ ++ [?m]) => set (P := m) in * end.
  exists P. split; [exact Hplace|].
  intros tp sp Htp Hsp Hicp.
  destruct (post_scale_factors_three gender) as (fx & fy & fz & Hpost).
  exists fx, fy, fz.
  exists (transform_mesh (set_block3 eye4 (np_diag fx fy fz)) P).
  exists (h ++ [transform_mesh (set_block3 eye4 (np_diag fx fy fz)) P; P]).
  split; [exact Hpost|]. split.
  - rewrite (fit_t_shirt_run L h body shirt B P gender fx fy fz HB Hplace Hpost).
    rewrite Htp, Hsp, Hicp. reflexivity.
  - split.
    + rewrite lookup_app_r by lia. rewrite Nat.sub_diag. reflexivity.
    + apply transform_mesh_pointwise. intros v. apply scale_point.
Qed.

Lemma icp_failure_keeps_placement_witness :
  valid_mesh Sample.body /\ valid_mesh Sample.shirt /\
  exists P,
    pre_icp_placement Sample.failing_icp 0%nat 1%nat "male" [Sample.body; Sample.shirt]
    = Returns (Some 2%nat) ([Sample.body; Sample.shirt] ++ [P]) /\
    exists fx fy fz F h',
      post_scale_factors "male" = [fx; fy; fz] /\
      fit_t_shirt Sample.failing_icp (Some 0%nat) (Some 1%nat) "male"
        [Sample.body; Sample.shirt]
      = Returns (Some 2%nat, Some 0%nat) h' /\
      h' !! 2%nat = Some F /\
      Forall2 (fun v v' => veq v' (vmul (fx, fy, fz) v)) (vertices P) (vertices F).
Proof.
  assert (HvB : valid_mesh Sample.body).
  { split; [discriminate|]. repeat constructor. }
  assert (HvG : valid_mesh Sample.shirt).
  { split; [discriminate|]. repeat constructor. }
  destruct (icp_failure_keeps_placement Sample.failing_icp [Sample.body; Sample.shirt]
              0%nat 1%nat Sample.body Sample.shirt "male"
              eq_refl eq_refl HvB HvG)
    as (P & Hplace & Hfit).
  split; [exact HvB|]. split; [exact HvG|].
  exists P. split; [exact Hplace|].
  exact (Hfit (vertices Sample.body) (vertices P) eq_refl eq_refl eq_refl).
Defined.

Lemma referenced_from_no_faces (i : nat) (vs : list vec3) :
  referenced_from i vs [] = [].
Proof. revert i. induction vs as [|v vs IH]; intros i; cbn; auto. Qed.

Lemma empty_no_extents (M : Mesh) : is_empty M -> extents M = None.
Proof.
  unfold is_empty, extents, bounds, referenced. intros ->.
  rewrite referenced_from_no_faces. reflexivity.
Qed.

(** C2, as the code has it.  A call with a null or an empty mesh fails
    before any transform: the store is as it was and there is no fitted
    mesh.  The failure is the refusal [(None, None)] exactly when a mesh is
    null; an empty mesh is not refused, the division of its undefined
    extents raises [TypeError]. *)
Theorem null_or_empty_fails (L : Trimesh) (h : heap)
    (body_mesh shirt_mesh : option ref) (gender : string) :
  in_store h body_mesh -> in_store h shirt_mesh ->
  null_or_empty h body_mesh \/ null_or_empty h shirt_mesh ->
  let o := fit_t_shirt L body_mesh shirt_mesh gender h in
  fails o /\ final_heap o = h /\
  (signals_invalid_input o <-> body_mesh = None \/ shirt_mesh = None) /\
  (body_mesh <> None -> shirt_mesh <> None -> o = Raises TypeError h).
Proof.
  intros Hbody Hshirt Hbad.
  destruct body_mesh as [body|].
  2:{ cbn. repeat split; try (intros; eauto; congruence).
      - intros _. eexists. reflexivity. }
  destruct shirt_mesh as [shirt|].
  2:{ cbn. repeat split; try (intros; eauto; congruence).
      - intros _. eexists. reflexivity. }
  destruct Hbody as [B HB], Hshirt as [G HG].
  assert (Hnone : extents B = None \/ extents G = None).
  { destruct Hbad as [(M & HM & He) | (M & HM & He)]; [left|right];
      apply empty_no_extents; congruence. }
  assert (Hrun : fit_t_shirt L (Some body) (Some shirt) gender h = Raises TypeError h).
  { rewrite fit_t_shirt_steps. unfold pre_icp_placement. rewrite !bind_run.
    rewrite (scale_to_body_no_extents h body shirt B G gender HB HG Hnone).
    reflexivity. }
  cbv zeta. rewrite Hrun. cbn. repeat split; try tauto.
  - intros [h' H]. discriminate.
  - intros [H | H]; discriminate.
Qed.

Lemma null_or_empty_fails_witness :
  let h := [Sample.body; Sample.empty_mesh] in
  (null_or_empty h (Some 0%nat) \/ null_or_empty h (Some 1%nat)) /\
  let o := fit_t_shirt Sample.failing_icp (Some 0%nat) (Some 1%nat) "male" h in
  fails o /\ final_heap o = h /\
  (signals_invalid_input o <-> Some 0%nat = None \/ Some 1%nat = None) /\
  (Some 0%nat <> None -> Some 1%nat <> None -> o = Raises TypeError h).
Proof.
  assert (Hbad : null_or_empty [Sample.body; Sample.empty_mesh] (Some 0%nat) \/
                 null_or_empty [Sample.body; Sample.empty_mesh] (Some 1%nat)).
  { right. exists Sample.empty_mesh. split; reflexivity. }
  split; [exact Hbad|].
  apply (null_or_empty_fails Sample.failing_icp [Sample.body; Sample.empty_mesh]
           (Some 0%nat) (Some 1%nat) "male").
  - exists Sample.body. reflexivity.
  - exists Sample.empty_mesh. reflexivity.
  - exact Hbad.
Defined.

(** C2 as stated does not hold: an empty garment is not answered with
    the refusal of the guard. *)
Lemma empty_garment_not_refused :
  is_empty Sample.empty_mesh /\
  ~ signals_invalid_input
      (fit_t_shirt Sample.failing_icp (Some 0%nat) (Some 1%nat) "male"
         [Sample.body; Sample.empty_mesh]).
Proof.
  split; [reflexivity|]. intros [h' H]. vm_compute in H. discriminate H.
Qed.




(** C4. Whatever the outcome of [fit_t_shirt], the garment and the body of
    the caller are in the store as they were; when the call returns, its
    second result is the body it was given and its first a mesh that is
    neither of the caller's two. *)
Theorem fit_t_shirt_frame (L : Trimesh) (h : heap) (body shirt : ref)
    (B G : Mesh) (gender : string) :
  h !! body = Some B -> h !! shirt = Some G ->
  let o := fit_t_shirt L (Some body) (Some shirt) gender h in
  final_heap o !! shirt = Some G /\
  final_heap o !! body = Some B /\
  forall fitted second h',
    o = Returns (fitted, second) h' ->
    second = Some body /\
    h' !! body = Some B /\
    forall w, fitted = Some w -> w <> shirt /\ w <> body.
Proof.
  intros HB HG. cbv zeta.
  pose proof (lookup_lt_Some _ _ _ HB) as Hlb.
  pose proof (lookup_lt_Some _ _ _ HG) as Hlg.
  pose proof (writes_above_fit_t_shirt L (length h) body shirt gender h (le_n _)) as Hw.
  destruct (fit_t_shirt L (Some body) (Some shirt) gender h) as [[fitted second] h'|e h'];
    cbn [final_heap].
  - destruct Hw as [[Hfit Hsnd] [_ Hkeep]]. cbn [fst snd] in *.
    split; [rewrite Hkeep by assumption; exact HG|].
    split; [rewrite Hkeep by assumption; exact HB|].
    intros fitted' second' h'' [= <- <- <-].
    split; [exact Hsnd|]. split; [rewrite Hkeep by assumption; exact HB|].
    intros w Hw. specialize (Hfit w Hw). split; lia.
  - destruct Hw as [_ Hkeep].
    split; [rewrite Hkeep by assumption; exact HG|].
    split; [rewrite Hkeep by assumption; exact HB|].
    intros fitted second h'' H. discriminate H.
Qed.

Lemma fit_t_shirt_frame_witness :
  let h := [Sample.body; Sample.shirt] in
  let o := fit_t_shirt Sample.identity_icp (Some 0%nat) (Some 1%nat) "female" h in
  h !! 0%nat = Some Sample.body /\ h !! 1%nat = Some Sample.shirt /\
  final_heap o !! 1%nat = Some Sample.shirt /\
  final_heap o !! 0%nat = Some Sample.body /\
  forall fitted second h',
    o = Returns (fitted, second) h' ->
    second = Some 0%nat /\
    h' !! 0%nat = Some Sample.body /\
    forall w, fitted = Some w -> w <> 1%nat /\ w <> 0%nat.
Proof.
  cbv zeta. split; [reflexivity|]. split; [reflexivity|].
  exact (fit_t_shirt_frame Sample.identity_icp [Sample.body; Sample.shirt]
           0%nat 1%nat Sample.body Sample.shirt "female" eq_refl eq_refl).
Defined.

(** ** More on [scale_mesh] and [translate_mesh] *)













(** ** Extents under scaling *)

Lemma Qmax_mul_nonneg (s a x : Q) : 0 <= s -> Qmax (s * a) (s * x) == s * Qmax a x.
Proof.
  intros Hs. destruct (Q.max_spec a x) as [[H ->]|[H ->]].
  - apply Q.max_r. nra.
  - apply Q.max_l. nra.
Qed.

Lemma Qmin_mul_nonneg (s a x : Q) : 0 <= s -> Qmin (s * a) (s * x) == s * Qmin a x.
Proof.
  intros Hs. destruct (Q.min_spec a x) as [[H ->]|[H ->]].
  - apply Q.min_l. nra.
  - apply Q.min_r. nra.
Qed.

Lemma Qmax_mul_nonpos (s a x : Q) : s <= 0 -> Qmax (s * a) (s * x) == s * Qmin a x.
Proof.
  intros Hs. destruct (Q.min_spec a x) as [[H ->]|[H ->]].
  - apply Q.max_l. nra.
  - apply Q.max_r. nra.
Qed.

Lemma Qmin_mul_nonpos (s a x : Q) : s <= 0 -> Qmin (s * a) (s * x) == s * Qmax a x.
Proof.
  intros Hs. destruct (Q.max_spec a x) as [[H ->]|[H ->]].
  - apply Q.min_r. nra.
  - apply Q.min_l. nra.
Qed.

(** A fold of [op'] over the multiples of a list is the multiple of the
    fold of [op] over the list. *)
Lemma fold_scaled (op op' : Q -> Q -> Q) (s : Q) :
  (forall a x, op' (s * a) (s * x) == s * op a x) ->
  Proper (Qeq ==> Qeq ==> Qeq) op' ->
  forall (l l' : list Q) (a a' : Q),
    Forall2 (fun x x' => x' == s * x) l l' -> a' == s * a ->
    fold_left op' l' a' == s * fold_left op l a.
Proof.
  intros Hmul Hcompat l. induction l as [|x l IH]; intros l' a a' Hall Ha.
  - inversion Hall; subst. exact Ha.
  - inversion Hall as [|? x' ? l'' Hx Hrest]; subst. cbn.
    apply IH; [assumption|].
    rewrite (Hcompat a' (s * a) Ha x' (s * x) Hx). apply Hmul.
Qed.

(** The width of a list of numbers scales by the absolute value. *)
Lemma width_scaled (s : Q) (l l' : list Q) (a a' : Q) :
  Forall2 (fun x x' => x' == s * x) l l' -> a' == s * a ->
  fold_left Qmax l' a' - fold_left Qmin l' a'
  == Qabs s * (fold_left Qmax l a - fold_left Qmin l a).
Proof.
  intros Hall Ha. destruct (Qlt_le_dec s 0) as [Hneg|Hpos].
  - rewrite (fold_scaled Qmin Qmax s (fun a x => Qmax_mul_nonpos s a x (Qlt_le_weak _ _ Hneg))
               Q.max_compat l l' a a' Hall Ha).
    rewrite (fold_scaled Qmax Qmin s (fun a x => Qmin_mul_nonpos s a x (Qlt_le_weak _ _ Hneg))
               Q.min_compat l l' a a' Hall Ha).
    rewrite (Qabs_neg s (Qlt_le_weak _ _ Hneg)). ring.
  - rewrite (fold_scaled Qmax Qmax s (fun a x => Qmax_mul_nonneg s a x Hpos)
               Q.max_compat l l' a a' Hall Ha).
    rewrite (fold_scaled Qmin Qmin s (fun a x => Qmin_mul_nonneg s a x Hpos)
               Q.min_compat l l' a a' Hall Ha).
    rewrite (Qabs_pos s Hpos). ring.
Qed.




(** A coordinate of a fold of [vmax] or [vmin] is the fold over that
    coordinate. *)
Lemma fold_coordinate (op : vec3 -> vec3 -> vec3) (qop : Q -> Q -> Q) (pr : vec3 -> Q) :
  (forall u v, pr (op u v) = qop (pr u) (pr v)) ->
  forall (ps : list vec3) (p : vec3),
    pr (fold_left op ps p) = fold_left qop (map pr ps) (pr p).
Proof.
  intros H ps. induction ps as [|q ps IH]; intros p; cbn; [reflexivity|].
  rewrite IH, H. reflexivity.
Qed.

(** The extents, coordinate by coordinate. *)
Lemma extents_widths (M : Mesh) (p : vec3) (ps : list vec3) :
  referenced M = p :: ps ->
  extents M =
  Some (fold_left Qmax (map (fun v => v.1.1) ps) p.1.1
        - fold_left Qmin (map (fun v => v.1.1) ps) p.1.1,
        fold_left Qmax (map (fun v => v.1.2) ps) p.1.2
        - fold_left Qmin (map (fun v => v.1.2) ps) p.1.2,
        fold_left Qmax (map (fun v => v.2) ps) p.2
        - fold_left Qmin (map (fun v => v.2) ps) p.2).
Proof.
  intros Href. unfold extents, bounds. rewrite Href.
  rewrite <- (fold_coordinate vmax Qmax (fun v => v.1.1)),
          <- (fold_coordinate vmax Qmax (fun v => v.1.2)),
          <- (fold_coordinate vmax Qmax (fun v => v.2)),
          <- (fold_coordinate vmin Qmin (fun v => v.1.1)),
          <- (fold_coordinate vmin Qmin (fun v => v.1.2)),
          <- (fold_coordinate vmin Qmin (fun v => v.2));
    try (intros [[? ?] ?] [[? ?] ?]; reflexivity).
  destruct (fold_left vmax ps p) as [[? ?] ?], (fold_left vmin ps p) as [[? ?] ?].
  reflexivity.
Qed.

Lemma coordinates_scaled (s : vec3) (ps qs : list vec3) :
  Forall2 (fun v v' => veq v' (vmul s v)) ps qs ->
  Forall2 (fun x x' => x' == s.1.1 * x) (map (fun v => v.1.1) ps) (map (fun v => v.1.1) qs) /\
  Forall2 (fun x x' => x' == s.1.2 * x) (map (fun v => v.1.2) ps) (map (fun v => v.1.2) qs) /\
  Forall2 (fun x x' => x' == s.2 * x) (map (fun v => v.2) ps) (map (fun v => v.2) qs).
Proof.
  destruct s as [[sx sy] sz].
  induction 1 as [|[[x y] z] [[x' y'] z'] ps qs (Hx & Hy & Hz) _ (IHx & IHy & IHz)];
    cbn; repeat split; constructor; assumption.
Qed.

(** Extents of a mesh whose vertices are the multiples of another's. *)
Lemma extents_scaled (M N : Mesh) (s : vec3) :
  faces N = faces M ->
  Forall2 (fun v v' => veq v' (vmul s v)) (vertices M) (vertices N) ->
  option_Forall2 (fun e' e => veq e' (vmul (vabs s) e)) (extents N) (extents M).
Proof.
  intros Hf Hv.
  assert (Href : Forall2 (fun v v' => veq v' (vmul s v)) (referenced M) (referenced N)).
  { unfold referenced. rewrite Hf. apply referenced_from_Forall2. assumption. }
  destruct (referenced M) as [|p ps] eqn:EM; destruct (referenced N) as [|q qs] eqn:EN;
    inversion Href as [|? ? ? ? Hpq Hrest]; subst.
  - unfold extents, bounds. rewrite EM, EN. constructor.
  - rewrite (extents_widths N q qs EN), (extents_widths M p ps EM). constructor.
    destruct (coordinates_scaled s ps qs Hrest) as (Hx & Hy & Hz).
    destruct s as [[sx sy] sz], p as [[px py_] pz], q as [[qx qy] qz].
    destruct Hpq as (Hqx & Hqy & Hqz). cbn in *.
    repeat split; apply width_scaled; assumption.
Qed.











(** ** More on [align_meshes_icp] and [fit_t_shirt] *)

Lemma lookup_second_new (h : heap) (M N : Mesh) :
  (h ++ [M; N]) !! S (length h) = Some N.
Proof.
  rewrite lookup_app_r by lia.
  replace (S (length h) - length h)%nat with 1%nat by lia. reflexivity.
Qed.

Lemma lookup_first_new (h : heap) (M N : Mesh) :
  (h ++ [M; N]) !! length h = Some M.
Proof. rewrite lookup_app_r by lia. now rewrite Nat.sub_diag. Qed.

Section Outcomes.

Context (L : Trimesh).

(** Without extents the call stops at the division. *)
Lemma fit_t_shirt_no_extents (h : heap) (body shirt : ref) (B G : Mesh) (gender : string) :
  h !! body = Some B -> h !! shirt = Some G ->
  extents B = None \/ extents G = None ->
  fit_t_shirt L (Some body) (Some shirt) gender h = Raises TypeError h.
Proof.
  intros HB HG Hnone. rewrite fit_t_shirt_steps. unfold pre_icp_placement.
  rewrite !bind_run, (scale_to_body_no_extents h body shirt B G gender HB HG Hnone).
  reflexivity.
Qed.

(** The fitted mesh, by what the sampler and the registration answer. *)
Lemma fitted_content_run (h : heap) (body shirt : ref) (B P : Mesh)
    (gender : string) (fx fy fz : Q) :
  h !! body = Some B ->
  pre_icp_placement L body shirt gender h = Returns (Some (length h)) (h ++ [P]) ->
  post_scale_factors gender = [fx; fy; fz] ->
  fitted_content (fit_t_shirt L (Some body) (Some shirt) gender h) =
  match sample L B 5000, sample L P 5000 with
  | Some target_points, Some source_points =>
      match icp L source_points target_points 100 0.01 with
      | Some transform =>
          Some (transform_mesh (set_block3 eye4 (np_diag fx fy fz))
                  (transform_mesh transform P))
      | None => Some (transform_mesh (set_block3 eye4 (np_diag fx fy fz)) P)
      end
  | _, _ => None
  end.
Proof.
  intros HB Hplace Hpost.
  rewrite (fit_t_shirt_run L h body shirt B P gender fx fy fz HB Hplace Hpost).
  destruct (sample L B 5000) as [tp|]; [|reflexivity].
  destruct (sample L P 5000) as [sp|]; [|reflexivity].
  destruct (icp L sp tp 100 0.01) as [transform|]; cbn [fitted_content].
  - apply lookup_second_new.
  - apply lookup_first_new.
Qed.

(** The fitted mesh depends on the store through the contents of the body
    and of the garment only. *)
Lemma fitted_content_by_content (h : heap) (body shirt : ref) (B G : Mesh)
    (gender : string) :
  h !! body = Some B -> h !! shirt = Some G ->
  fitted_content (fit_t_shirt L (Some body) (Some shirt) gender h)
  = fitted_garment L B G gender.
Proof.
  intros HB HG. unfold fitted_garment.
  destruct (extents B) as [b|] eqn:Hb.
  2:{ rewrite (fit_t_shirt_no_extents h body shirt B G gender HB HG (or_introl Hb)).
      rewrite (fit_t_shirt_no_extents [B; G] 0%nat 1%nat B G gender eq_refl eq_refl
                 (or_introl Hb)).
      reflexivity. }
  destruct (extents G) as [g|] eqn:Hg.
  2:{ rewrite (fit_t_shirt_no_extents h body shirt B G gender HB HG (or_intror Hg)).
      rewrite (fit_t_shirt_no_extents [B; G] 0%nat 1%nat B G gender eq_refl eq_refl
                 (or_intror Hg)).
      reflexivity. }
  pose proof (pre_icp_placement_run L h body shirt B G b g gender HB HG Hb Hg) as H1.
  pose proof (pre_icp_placement_run L [B; G] 0%nat 1%nat B G b g gender
                eq_refl eq_refl Hb Hg) as H2.
  destruct (vmul (vdiv b g) (pre_scale_ratios gender)) as [[sx sy] sz].
  cbv zeta in H1, H2.
  destruct (post_scale_factors_three gender) as (fx & fy & fz & Hpost).
  rewrite (fitted_content_run h body shirt B _ gender fx fy fz HB H1 Hpost).
  rewrite (fitted_content_run [B; G] 0%nat 1%nat B _ gender fx fy fz eq_refl H2 Hpost).
  reflexivity.
Qed.

End Outcomes.



(** X8. On two valid meshes, when the registration answers a transform,
    the fitted mesh is a new object, the copy that [align_meshes_icp]
    made: each of its vertices is the post-scale of the transform of the
    vertex the placement gave, and the working copy of steps 1 and 2 stays
    in the store as it was placed. *)
Theorem icp_success_transforms_copy (L : Trimesh) (h : heap) (body shirt : ref)
    (B G : Mesh) (gender : string) :
  h !! body = Some B -> h !! shirt = Some G ->
  valid_mesh B -> valid_mesh G ->
  exists P,
    pre_icp_placement L body shirt gender h = Returns (Some (length h)) (h ++ [P]) /\
    forall target_points source_points transform,
      sample L B 5000 = Some target_points ->
      sample L P 5000 = Some source_points ->
      icp L source_points target_points 100 0.01 = Some transform ->
      exists fx fy fz F h',
        post_scale_factors gender = [fx; fy; fz] /\
        fit_t_shirt L (Some body) (Some shirt) gender h
        = Returns (Some (S (length h)), Some body) h' /\
        h' !! S (length h) = Some F /\
        h' !! length h = Some P /\
        Forall2 (fun v v' => veq v' (vmul (fx, fy, fz) (transform_point transform v)))
          (vertices P) (vertices F).
Proof.
  intros HB HG HvB HvG.
  destruct (valid_mesh_extents B HvB) as [b Hb].
  destruct (valid_mesh_extents G HvG) as [g Hg].
  pose proof (pre_icp_placement_run L h body shirt B G b g gender HB HG Hb Hg) as Hplace.
  destruct (vmul (vdiv b g) (pre_scale_ratios gender)) as [[sx sy] sz].
  cbv zeta in Hplace.
  match type of Hplace with _ = Returns _ (_ ++ [?m]) => set (P := m) in * end.
  exists P. split; [exact Hplace|].
  intros tp sp T Htp Hsp Hicp.
  destruct (post_scale_factors_three gender) as (fx & fy & fz & Hpost).
  exists fx, fy, fz.
  exists (transform_mesh (set_block3 eye4 (np_diag fx fy fz)) (transform_mesh T P)).
  eexists.
  split; [exact Hpost|]. split.
  - rewrite (fit_t_shirt_run L h body shirt B P gender fx fy fz HB Hplace Hpost).
    rewrite Htp, Hsp, Hicp. reflexivity.
  - split; [apply lookup_second_new|]. split; [apply lookup_first_new|].
    cbn [transform_mesh vertices].
    induction (vertices P) as [|v vs IH]; cbn [map]; constructor; [|exact IH].
    apply scale_point.
Qed.

Lemma icp_success_transforms_copy_witness :
  valid_mesh Sample.body /\ valid_mesh Sample.shirt /\
  exists P,
    pre_icp_placement Sample.identity_icp 0%nat 1%nat "female" [Sample.body; Sample.shirt]
    = Returns (Some 2%nat) ([Sample.body; Sample.shirt] ++ [P]) /\
    exists fx fy fz F h',
      post_scale_factors "female" = [fx; fy; fz] /\
      fit_t_shirt Sample.identity_icp (Some 0%nat) (Some 1%nat) "female"
        [Sample.body; Sample.shirt]
      = Returns (Some 3%nat, Some 0%nat) h' /\
      h' !! 3%nat = Some F /\
      h' !! 2%nat = Some P /\
      Forall2 (fun v v' => veq v' (vmul (fx, fy, fz) (transform_point eye4 v)))
        (vertices P) (vertices F).
Proof.
  assert (HvB : valid_mesh Sample.body).
  { split; [discriminate|]. repeat constructor. }
  assert (HvG : valid_mesh Sample.shirt).
  { split; [discriminate|]. repeat constructor. }
  destruct (icp_success_transforms_copy Sample.identity_icp [Sample.body; Sample.shirt]
              0%nat 1%nat Sample.body Sample.shirt "female"
              eq_refl eq_refl HvB HvG)
    as (P & Hplace & Hfit).
  split; [exact HvB|]. split; [exact HvG|].
  exists P. split; [exact Hplace|].
  exact (Hfit (vertices Sample.body) (vertices P) eye4 eq_refl eq_refl eq_refl).
Defined.



(** X10. [align_meshes_icp] changes no mesh that was in the store: it
    works on a copy of the source, and the mesh it returns, if any, is a
    new object.  With a target or a source that is [None] it returns
    [None] and the store is as it was. *)
Theorem align_meshes_icp_frame (L : Trimesh) (h : heap)
    (target_mesh source_mesh : option ref) (max_iterations : nat) (threshold : Q) :
  let o := align_meshes_icp L target_mesh source_mesh max_iterations threshold h in
  (forall r : ref, (r < length h)%nat -> final_heap o !! r = h !! r) /\
  (forall w h', o = Returns (Some w) h' -> (length h <= w)%nat) /\
  (target_mesh = None \/ source_mesh = None -> o = Returns None h).
Proof.
  cbv zeta.
  pose proof (writes_above_align_meshes_icp L (length h) target_mesh source_mesh
                max_iterations threshold h (le_n _)) as Hw.
  split; [|split].
  - destruct (align_meshes_icp L target_mesh source_mesh max_iterations threshold h)
      as [res h'|e h']; cbn [final_heap].
    + destruct Hw as [_ [_ Hkeep]]. exact Hkeep.
    + destruct Hw as [_ Hkeep]. exact Hkeep.
  - intros w h' Ho. rewrite Ho in Hw. destruct Hw as [Habove _].
    apply Habove. reflexivity.
  - intros [-> | ->]; [reflexivity|]. destruct target_mesh; reflexivity.
Qed.



(** ** [load_mesh] *)

Lemma normalize_units_run (h : heap) (r : ref) (M : Mesh) (e : vec3) :
  h !! r = Some M -> extents M = Some e ->
  normalize_units r h =
  if Qlt_le_dec 10 (median3 e)
  then Returns (Some r) (<[r := transform_mesh (set_block3 eye4 (np_diag 0.001 0.001 0.001)) M]> h)
  else Returns (Some r) h.
Proof.
  intros Hr He. unfold normalize_units.
  rewrite bind_run, (get_extents_run _ _ _ Hr), He.
  rewrite bind_run. cbn [np_median mret py_ret].
  rewrite bind_run. destruct (Qlt_le_dec 10 (median3 e)).
  - unfold apply_scale. rewrite (apply_transform_run _ _ _ _ Hr). reflexivity.
  - reflexivity.
Qed.

Lemma normalize_units_no_extents (h : heap) (r : ref) (M : Mesh) :
  h !! r = Some M -> extents M = None ->
  normalize_units r h = Raises TypeError h.
Proof.
  intros Hr He. unfold normalize_units.
  rewrite bind_run, (get_extents_run _ _ _ Hr), He. reflexivity.
Qed.

(** [load_mesh], by the Trimesh found in the file and its extents. *)
Lemma load_mesh_run (Ld : Loader) (file_path : string) (h : heap) :
  load_mesh Ld file_path h =
  match extract_trimesh Ld file_path with
  | None => Returns None h
  | Some M =>
      match extents M with
      | None => Returns None (h ++ [M])
      | Some e =>
          Returns (Some (length h))
            (h ++ [if Qlt_le_dec 10 (median3 e)
                   then transform_mesh (set_block3 eye4 (np_diag 0.001 0.001 0.001)) M
                   else M])
      end
  end.
Proof.
  unfold load_mesh. destruct (extract_trimesh Ld file_path) as [M|]; [|reflexivity].
  unfold try_except. rewrite bind_run. cbn [alloc].
  destruct (extents M) as [e|] eqn:He.
  - rewrite (normalize_units_run _ _ M e (lookup_last h M) He).
    destruct (Qlt_le_dec 10 (median3 e)); [|reflexivity].
    rewrite insert_last. reflexivity.
  - rewrite (normalize_units_no_extents _ _ M (lookup_last h M) He). reflexivity.
Qed.


(** X12. [load_mesh] never raises: whatever the file holds and whatever
    trimesh does, it returns, with [None] or with a new mesh of the store,
    and no mesh that was in the store is changed. *)
Theorem load_mesh_never_raises (Ld : Loader) (file_path : string) (h : heap) :
  exists res h',
    load_mesh Ld file_path h = Returns res h' /\
    (forall r : ref, (r < length h)%nat -> h' !! r = h !! r) /\
    (forall w, res = Some w -> w = length h /\ is_Some (h' !! w)).
Proof.
  rewrite load_mesh_run.
  destruct (extract_trimesh Ld file_path) as [M|].
  2:{ exists None, h. split; [reflexivity|]. split; [reflexivity|discriminate]. }
  destruct (extents M) as [e|].
  - eexists _, _. split; [reflexivity|]. split.
    + intros r Hr. apply lookup_app_l. assumption.
    + intros w [= <-]. split; [reflexivity|]. eexists. apply lookup_last.
  - eexists _, _. split; [reflexivity|]. split.
    + intros r Hr. apply lookup_app_l. assumption.
    + discriminate.
Qed.



(** X14. Every mesh that [load_mesh] returns has extents: a file whose
    Trimesh has no triangle gives [None] (the median of its undefined
    extents raises, inside the [try]). *)
Theorem load_mesh_has_extents (Ld : Loader) (file_path : string) (h : heap) :
  (forall r h',
      load_mesh Ld file_path h = Returns (Some r) h' ->
      exists M e, h' !! r = Some M /\ extents M = Some e) /\
  (forall M0,
      extract_trimesh Ld file_path = Some M0 -> is_empty M0 ->
      load_mesh Ld file_path h = Returns None (h ++ [M0])).
Proof.
  rewrite load_mesh_run. split.
  - intros r h'. destruct (extract_trimesh Ld file_path) as [M0|]; [|discriminate].
    destruct (extents M0) as [e|] eqn:He; [|discriminate].
    intros [= <- <-]. rewrite lookup_last.
    destruct (Qlt_le_dec 10 (median3 e)) as [Hbig|Hsmall].
    + set (M := transform_mesh (set_block3 eye4 (np_diag 0.001 0.001 0.001)) M0).
      assert (Hv : Forall2 (fun v v' => veq v' (vmul (0.001, 0.001, 0.001) v))
                     (vertices M0) (vertices M)).
      { apply transform_mesh_pointwise. intros v. apply scale_point. }
      pose proof (extents_scaled M0 M (0.001, 0.001, 0.001) eq_refl Hv) as Hext.
      rewrite He in Hext. inversion Hext as [e' ? He' Heq|]; subst.
      exists M, e'. split; [reflexivity|]. symmetry. exact Heq.
    + exists M0, e. split; [reflexivity|exact He].
  - intros M0 -> Hempty. rewrite (empty_no_extents M0 Hempty). reflexivity.
Qed.

Lemma load_mesh_has_extents_witness :
  (exists M e,
      ([] ++ [Sample.body]) !! 0%nat = Some M /\ extents M = Some e) /\
  is_empty Sample.empty_mesh /\
  load_mesh Files.disk "empty.glb" [Sample.body]
  = Returns None ([Sample.body] ++ [Sample.empty_mesh]).
Proof.
  split; [|split; [reflexivity|]].
  - apply (proj1 (load_mesh_has_extents Files.disk "male_body-2.glb" []) 0%nat
             ([] ++ [Sample.body])).
    reflexivity.
  - apply (proj2 (load_mesh_has_extents Files.disk "empty.glb" [Sample.body])
             Sample.empty_mesh); reflexivity.
Defined.

(** ** [visualize_meshes] and [main] *)

Lemma io_bind_run {A B} (m : io A) (f : A -> io B) (w : world) :
  (x ← m; f x) w =
  match m w with
  | Finished a w' => f a w'
  | Crashed e w' => Crashed e w'
  end.
Proof. reflexivity. Qed.

Lemma lift_run {A} (m : py A) (h : heap) (ws : list (list Mesh)) :
  lift m (mkWorld h ws) =
  match m h with
  | Returns a h' => Finished a (mkWorld h' ws)
  | Raises e h' => Crashed e (mkWorld h' ws)
  end.
Proof. reflexivity. Qed.

(** The loop of [visualize_meshes] collects the meshes behind the
    references that are not [None], in order. *)
Lemma add_meshes_run (h : heap) (meshes : list (option ref)) :
  Forall (fun m => match m with Some r => is_Some (h !! r) | None => True end) meshes ->
  exists scene,
    add_meshes meshes h = Returns scene h /\
    Forall2 (fun r M => h !! r = Some M) (omap id meshes) scene.
Proof.
  induction 1 as [|m meshes Hm _ (scene & Hrun & Hscene)].
  - exists []. split; [reflexivity|constructor].
  - destruct m as [r|].
    + destruct Hm as [M HM]. exists (M :: scene). split.
      * cbn [add_meshes]. rewrite bind_run, (deref_run _ _ _ HM), bind_run, Hrun.
        reflexivity.
      * cbn. constructor; assumption.
    + exists scene. split; [exact Hrun|exact Hscene].
Qed.

(** X15. [visualize_meshes] opens exactly one window, holding the meshes
    of its argument that are not [None], in their order; an argument that
    is not a list is shown as the list of that one element; no mesh is
    changed. *)
Theorem visualize_meshes_shows (meshes : meshes_arg) (h : heap) (ws : list (list Mesh)) :
  let l := match meshes with AList l => l | NotAList m => [m] end in
  Forall (fun m => match m with Some r => is_Some (h !! r) | None => True end) l ->
  exists scene,
    visualize_meshes meshes (mkWorld h ws) = Finished tt (mkWorld h (ws ++ [scene])) /\
    Forall2 (fun r M => h !! r = Some M) (omap id l) scene.
Proof.
  cbv zeta. intros Hl.
  destruct (add_meshes_run h _ Hl) as (scene & Hrun & Hscene).
  exists scene. split; [|exact Hscene].
  unfold visualize_meshes. rewrite io_bind_run, lift_run, Hrun. reflexivity.
Qed.

Lemma visualize_meshes_shows_witness :
  let h := [Sample.body; Sample.shirt] in
  (exists scene,
      visualize_meshes (AList [Some 1%nat; None; Some 0%nat]) (mkWorld h [])
      = Finished tt (mkWorld h ([] ++ [scene])) /\
      Forall2 (fun r M => h !! r = Some M) [1%nat; 0%nat] scene) /\
  (exists scene,
      visualize_meshes (NotAList None) (mkWorld h [])
      = Finished tt (mkWorld h ([] ++ [scene])) /\
      Forall2 (fun r M => h !! r = Some M) [] scene).
Proof.
  cbv zeta. split.
  - apply (visualize_meshes_shows (AList [Some 1%nat; None; Some 0%nat])
             [Sample.body; Sample.shirt] []).
    repeat constructor; eexists; reflexivity.
  - apply (visualize_meshes_shows (NotAList None) [Sample.body; Sample.shirt] []).
    repeat constructor.
Defined.

Lemma loaded_mesh_spec (Ld : Loader) (file_path : string) :
  loaded_mesh Ld file_path =
  match extract_trimesh Ld file_path with
  | None => None
  | Some M =>
      match extents M with
      | None => None
      | Some e =>
          Some (if Qlt_le_dec 10 (median3 e)
                then transform_mesh (set_block3 eye4 (np_diag 0.001 0.001 0.001)) M
                else M)
      end
  end.
Proof.
  unfold loaded_mesh. rewrite load_mesh_run.
  destruct (extract_trimesh Ld file_path) as [M|]; [|reflexivity].
  destruct (extents M); reflexivity.
Qed.

Lemma load_mesh_loaded (Ld : Loader) (file_path : string) (h : heap) (M : Mesh) :
  loaded_mesh Ld file_path = Some M ->
  load_mesh Ld file_path h = Returns (Some (length h)) (h ++ [M]).
Proof.
  rewrite loaded_mesh_spec, load_mesh_run.
  destruct (extract_trimesh Ld file_path) as [M0|]; [|discriminate].
  destruct (extents M0); [|discriminate]. intros [= <-]. reflexivity.
Qed.

Lemma load_mesh_not_loaded (Ld : Loader) (file_path : string) (h : heap) :
  loaded_mesh Ld file_path = None ->
  exists h', load_mesh Ld file_path h = Returns None h'.
Proof.
  rewrite loaded_mesh_spec, load_mesh_run.
  destruct (extract_trimesh Ld file_path) as [M0|]; [|eauto].
  destruct (extents M0); [discriminate|eauto].
Qed.

Lemma load_mesh_returns (Ld : Loader) (file_path : string) (h : heap) :
  exists res h',
    load_mesh Ld file_path h = Returns res h' /\
    keeps (length h) h h' /\
    (loaded_mesh Ld file_path = None -> res = None).
Proof.
  destruct (loaded_mesh Ld file_path) as [M|] eqn:HM.
  - exists (Some (length h)), (h ++ [M]).
    split; [apply load_mesh_loaded; assumption|].
    split; [apply keeps_alloc; lia|discriminate].
  - rewrite loaded_mesh_spec in HM. rewrite load_mesh_run.
    destruct (extract_trimesh Ld file_path) as [M0|].
    + destruct (extents M0); [discriminate|].
      eexists _, _. split; [reflexivity|]. split; [apply keeps_alloc; lia|reflexivity].
    + eexists _, _. split; [reflexivity|]. split; [apply keeps_refl; lia|reflexivity].
Qed.

Section MainLoop.

Context (L : Trimesh).

(** On two meshes of the store the call raises, or returns a fitted mesh
    of the store and the body. *)
Lemma fit_t_shirt_cases (h : heap) (body shirt : ref) (B G : Mesh) (gender : string) :
  h !! body = Some B -> h !! shirt = Some G ->
  (exists e h',
      fit_t_shirt L (Some body) (Some shirt) gender h = Raises e h' /\
      (e = SamplingError \/ extents B = None \/ extents G = None)) \/
  (exists w F h',
      fit_t_shirt L (Some body) (Some shirt) gender h = Returns (Some w, Some body) h' /\
      h' !! w = Some F).
Proof.
  intros HB HG.
  destruct (extents B) as [b|] eqn:Hb.
  2:{ left. eexists _, _. split; [|right; left; reflexivity].
      apply (fit_t_shirt_no_extents L h body shirt B G gender HB HG (or_introl Hb)). }
  destruct (extents G) as [g|] eqn:Hg.
  2:{ left. eexists _, _. split; [|right; right; reflexivity].
      apply (fit_t_shirt_no_extents L h body shirt B G gender HB HG (or_intror Hg)). }
  pose proof (pre_icp_placement_run L h body shirt B G b g gender HB HG Hb Hg) as Hplace.
  destruct (vmul (vdiv b g) (pre_scale_ratios gender)) as [[sx sy] sz].
  cbv zeta in Hplace.
  destruct (post_scale_factors_three gender) as (fx & fy & fz & Hpost).
  rewrite (fit_t_shirt_run L h body shirt B _ gender fx fy fz HB Hplace Hpost).
  destruct (sample L B 5000) as [tp|]; [|left; eauto].
  destruct (sample L _ 5000) as [sp|]; [|left; eauto].
  destruct (icp L sp tp 100 0.01) as [T|]; right; eexists _, _, _.
  - split; [reflexivity|apply lookup_second_new].
  - split; [reflexivity|apply lookup_first_new].
Qed.

Lemma visualize_pair_run (h : heap) (ws : list (list Mesh)) (body w : ref) (B F : Mesh) :
  h !! body = Some B -> h !! w = Some F ->
  visualize_meshes (AList [Some body; Some w]) (mkWorld h ws)
  = Finished tt (mkWorld h (ws ++ [[B; F]])).
Proof.
  intros HB HF. unfold visualize_meshes. rewrite io_bind_run, lift_run.
  cbn [add_meshes].
  rewrite bind_run, (deref_run _ _ _ HB), bind_run, bind_run, (deref_run _ _ _ HF).
  reflexivity.
Qed.

(** One turn of the loop of [main]. *)
Lemma fit_each_step (h : heap) (ws : list (list Mesh)) (body shirt : ref) (B G : Mesh)
    (gender : string) (rest : list (option ref * string)) :
  h !! body = Some B -> h !! shirt = Some G ->
  match fitted_garment L B G gender with
  | Some F =>
      exists h',
        keeps (length h) h h' /\
        fit_each L (Some shirt) ((Some body, gender) :: rest) (mkWorld h ws)
        = fit_each L (Some shirt) rest (mkWorld h' (ws ++ [[B; F]]))
  | None =>
      exists e h',
        fit_each L (Some shirt) ((Some body, gender) :: rest) (mkWorld h ws)
        = Crashed e (mkWorld h' ws) /\
        (e = SamplingError \/ extents B = None \/ extents G = None)
  end.
Proof.
  intros HB HG.
  pose proof (fitted_content_by_content L h body shirt B G gender HB HG) as Hcontent.
  pose proof (writes_above_fit_t_shirt L (length h) body shirt gender h (le_n _)) as Hw.
  cbn [fit_each]. rewrite io_bind_run, lift_run.
  destruct (fit_t_shirt_cases h body shirt B G gender HB HG)
    as [(e & h' & Ho & He) | (w & F & h' & Ho & HF)]; rewrite Ho in *.
  - cbn [fitted_content] in Hcontent. rewrite <- Hcontent. eauto.
  - cbn [fitted_content] in Hcontent. rewrite <- Hcontent, HF.
    destruct Hw as [_ Hkeep]. exists h'. split; [exact Hkeep|].
    assert (HB' : h' !! body = Some B).
    { destruct Hkeep as [_ Hk]. rewrite Hk; [exact HB|].
      eapply lookup_lt_Some; eassumption. }
    rewrite io_bind_run, (visualize_pair_run h' ws body w B F HB' HF). reflexivity.
Qed.

End MainLoop.

Section Main.

Context (Ld : Loader) (L : Trimesh).

(** [main] once its three meshes are loaded: they are the three newest
    objects of the store, and the loop runs on them. *)
Lemma main_after_loads (h : heap) (ws : list (list Mesh)) (F M G : Mesh) :
  loaded_mesh Ld "female_body.glb" = Some F ->
  loaded_mesh Ld "male_body-2.glb" = Some M ->
  loaded_mesh Ld "normal_t-shirt_animated.glb" = Some G ->
  exists (female male shirt : ref) (h3 : heap),
    h3 !! female = Some F /\ h3 !! male = Some M /\ h3 !! shirt = Some G /\
    keeps (length h) h h3 /\
    main Ld L (mkWorld h ws) =
    (_ ← fit_each L (Some shirt)
           [(Some female, "female"%string); (Some male, "male"%string)];
     mret tt) (mkWorld h3 ws).
Proof.
  intros HF HM HG.
  exists (length h), (length (h ++ [F])), (length ((h ++ [F]) ++ [M])),
         (((h ++ [F]) ++ [M]) ++ [G]).
  split; [do 2 apply (lookup_old _ _ _ _); apply lookup_last|].
  split; [apply (lookup_old _ _ _ _); apply lookup_last|].
  split; [apply lookup_last|].
  split.
  { split; [rewrite !length_app; lia|].
    intros r Hr. rewrite !lookup_app_l; [reflexivity|try rewrite !length_app; lia..]. }
  unfold main.
  rewrite io_bind_run, lift_run, (load_mesh_loaded Ld _ h F HF).
  rewrite io_bind_run, lift_run, (load_mesh_loaded Ld _ _ M HM).
  rewrite io_bind_run, lift_run, (load_mesh_loaded Ld _ _ G HG).
  reflexivity.
Qed.

End Main.

(** X16. When the three files load and both fits succeed, [main] ends
    normally after showing two windows: the female body with the garment
    fitted to it as "female", then the male body with the garment fitted
    to it as "male".  Both garments are fitted from the garment as it was
    loaded: the first fit does not spoil the second. *)
Theorem main_shows_both (Ld : Loader) (L : Trimesh) (h : heap) (ws : list (list Mesh))
    (F M G XF XM : Mesh) :
  loaded_mesh Ld "female_body.glb" = Some F ->
  loaded_mesh Ld "male_body-2.glb" = Some M ->
  loaded_mesh Ld "normal_t-shirt_animated.glb" = Some G ->
  fitted_garment L F G "female" = Some XF ->
  fitted_garment L M G "male" = Some XM ->
  exists h',
    main Ld L (mkWorld h ws) = Finished tt (mkWorld h' (ws ++ [[F; XF]; [M; XM]])) /\
    forall r : ref, (r < length h)%nat -> h' !! r = h !! r.
Proof.
  intros HF HM HG HXF HXM.
  destruct (main_after_loads Ld L h ws F M G HF HM HG)
    as (female & male & shirt & h3 & HF3 & HM3 & HG3 & Hk3 & ->).
  rewrite io_bind_run.
  pose proof (fit_each_step L h3 ws female shirt F G "female"
                [(Some male, "male"%string)] HF3 HG3) as Hstep1.
  rewrite HXF in Hstep1. destruct Hstep1 as (h4 & Hk4 & ->).
  assert (HM4 : h4 !! male = Some M).
  { destruct Hk4 as [_ Hk]. rewrite Hk; [exact HM3|]. eapply lookup_lt_Some; eassumption. }
  assert (HG4 : h4 !! shirt = Some G).
  { destruct Hk4 as [_ Hk]. rewrite Hk; [exact HG3|]. eapply lookup_lt_Some; eassumption. }
  pose proof (fit_each_step L h4 (ws ++ [[F; XF]]) male shirt M G "male" [] HM4 HG4)
    as Hstep2.
  rewrite HXM in Hstep2. destruct Hstep2 as (h5 & Hk5 & ->).
  exists h5. split.
  - cbn [fit_each]. rewrite <- app_assoc. reflexivity.
  - intros r Hr.
    destruct Hk3 as [Hl3 Hk3], Hk4 as [Hl4 Hk4], Hk5 as [_ Hk5].
    rewrite Hk5, Hk4, Hk3 by lia. reflexivity.
Qed.

Lemma main_shows_both_witness :
  exists F M G XF XM h',
    loaded_mesh Files.disk "female_body.glb" = Some F /\
    loaded_mesh Files.disk "male_body-2.glb" = Some M /\
    loaded_mesh Files.disk "normal_t-shirt_animated.glb" = Some G /\
    fitted_garment Sample.identity_icp F G "female" = Some XF /\
    fitted_garment Sample.identity_icp M G "male" = Some XM /\
    main Files.disk Sample.identity_icp (mkWorld [] [])
    = Finished tt (mkWorld h' ([] ++ [[F; XF]; [M; XM]])).
Proof.
  eexists _, _, _, _, _.
  destruct (main_shows_both Files.disk Sample.identity_icp [] []
              _ _ _ _ _ eq_refl eq_refl eq_refl eq_refl eq_refl) as (h' & Hmain & _).
  exists h'. repeat (split; [reflexivity|]). exact Hmain.
Defined.

(** X17. When one of the three files does not load, [main] ends normally
    without a window: nothing is fitted and nothing is shown. *)
Theorem main_needs_all_three (Ld : Loader) (L : Trimesh) (h : heap)
    (ws : list (list Mesh)) :
  loaded_mesh Ld "female_body.glb" = None \/
  loaded_mesh Ld "male_body-2.glb" = None \/
  loaded_mesh Ld "normal_t-shirt_animated.glb" = None ->
  exists h',
    main Ld L (mkWorld h ws) = Finished tt (mkWorld h' ws) /\
    forall r : ref, (r < length h)%nat -> h' !! r = h !! r.
Proof.
  intros Hnone.
  destruct (load_mesh_returns Ld "female_body.glb" h) as (r1 & h1 & H1 & K1 & S1).
  destruct (load_mesh_returns Ld "male_body-2.glb" h1) as (r2 & h2 & H2 & K2 & S2).
  destruct (load_mesh_returns Ld "normal_t-shirt_animated.glb" h2)
    as (r3 & h3 & H3 & K3 & S3).
  exists h3. split.
  - unfold main.
    rewrite io_bind_run, lift_run, H1, io_bind_run, lift_run, H2,
      io_bind_run, lift_run, H3.
    destruct r1 as [w1|]; [|reflexivity].
    destruct r2 as [w2|]; [|reflexivity].
    destruct r3 as [w3|]; [|reflexivity].
    exfalso. destruct Hnone as [Hn | [Hn | Hn]].
    + specialize (S1 Hn). discriminate S1.
    + specialize (S2 Hn). discriminate S2.
    + specialize (S3 Hn). discriminate S3.
  - intros r Hr. destruct K1 as [L1 K1], K2 as [L2 K2], K3 as [L3 K3].
    rewrite K3, K2, K1 by lia. reflexivity.
Qed.

Lemma main_needs_all_three_witness :
  loaded_mesh Files.no_male_body "male_body-2.glb" = None /\
  exists h',
    main Files.no_male_body Sample.identity_icp (mkWorld [Sample.body] [[Sample.shirt]])
    = Finished tt (mkWorld h' [[Sample.shirt]]) /\
    forall r : ref, (r < 1)%nat -> h' !! r = [Sample.body] !! r.
Proof.
  split; [reflexivity|].
  apply (main_needs_all_three Files.no_male_body Sample.identity_icp
           [Sample.body] [[Sample.shirt]]).
  right. left. reflexivity.
Defined.






